(** * Corona and barycenter clustering (invisible_cities/reco/xy_algorithms.py)

    A shallow embedding of the clustering algorithms of
    [invisible_cities.reco.xy_algorithms] and the properties of its behaviour.

    Numbers.  Charges, coordinates and radii are exact rationals ([Q]); the
    rounding, NaN and infinities of IEEE floats are outside this model.  The
    comparison [np.linalg.norm(v) <= d] is written without the square root:
    it holds exactly when [0 <= d] and [|v|^2 <= d^2].

    Arrays.  A numpy array is a list; [pos] and [qs] are the parallel arrays
    of the source and nothing in the model forces them to have the same
    length.  Indexing with an index array and [np.delete] raise [IndexError]
    out of range, as numpy does.

    Failures.  Python exceptions are values of [exn]; a function that can
    raise returns a [result].  The [while] loop of [corona] is a fixpoint on
    a bound on the number of completed iterations, [None] meaning that the
    bound was reached with the loop still running.

    Types.  The decorator [check_annotations] compares the arguments with
    their annotations; the arguments of the model are typed, so that it has
    nothing to reject and is left out.  The data frame [all_sipms] is a list
    of rows, which gives its columns the same length. *)

From Stdlib Require Import QArith ZArith Lia Lqa Sorted.
From stdpp Require Import base list gmap strings.

Local Open Scope Q_scope.

(** ** Exceptions and results *)

Inductive exn : Type :=
| SipmEmptyList
| SipmZeroCharge
| SipmEmptyListAboveQthr
| SipmZeroChargeAboveQthr
| ClusterEmptyList
| ValueError (msg : string)
| IndexError
| AttributeError
| AssertionError (msg : string).

Inductive result (A : Type) : Type :=
| Ok (a : A)
| Raise (e : exn).
Arguments Ok {A} a.
Arguments Raise {A} e.

#[global] Instance result_ret : MRet result := fun _ a => Ok a.
#[global] Instance result_bind : MBind result := fun _ _ k m =>
  match m with
  | Ok a => k a
  | Raise e => Raise e
  end.

(** ** The numpy operations used by the module *)

Definition point : Type := Q * Q.

(** [np.sum(qs)] *)
Definition np_sum (qs : list Q) : Q := foldr Qplus 0 qs.

(** [np.where(mask)[0]]: the indices of the true entries, in order. *)
Fixpoint where_from (i : nat) (mask : list bool) : list nat :=
  match mask with
  | [] => []
  | b :: mask' =>
      if b then i :: where_from (S i) mask' else where_from (S i) mask'
  end.

Definition np_where (mask : list bool) : list nat := where_from 0 mask.

(** [arr[i]] for one index. *)
Definition getitem {A} (arr : list A) (i : nat) : result A :=
  match arr !! i with
  | Some x => Ok x
  | None => Raise IndexError
  end.

(** [arr[inds]] for an index array. *)
Fixpoint np_take {A} (arr : list A) (inds : list nat) : result (list A) :=
  match inds with
  | [] => Ok []
  | i :: inds' =>
      x ← getitem arr i;
      xs ← np_take arr inds';
      Ok (x :: xs)
  end.

(** [np.delete(arr, inds)]: the entries whose index is not in [inds];
    an index out of range raises. *)
Fixpoint delete_from {A} (i : nat) (inds : list nat) (arr : list A) : list A :=
  match arr with
  | [] => []
  | x :: arr' =>
      if bool_decide (i ∈ inds) then delete_from (S i) inds arr'
      else x :: delete_from (S i) inds arr'
  end.

Definition np_delete {A} (arr : list A) (inds : list nat) : result (list A) :=
  if forallb (fun i => i <? length arr)%nat inds
  then Ok (delete_from 0 inds arr)
  else Raise IndexError.

(** [np.argmax(qs)]: the first index holding the largest entry. *)
Fixpoint argmax_from (best : nat) (qbest : Q) (i : nat) (qs : list Q) : nat :=
  match qs with
  | [] => best
  | q :: qs' =>
      if Qle_bool q qbest then argmax_from best qbest (S i) qs'
      else argmax_from i q (S i) qs'
  end.

Definition np_argmax (qs : list Q) : result nat :=
  match qs with
  | [] => Raise (ValueError "attempt to get argmax of an empty sequence")
  | q :: qs' => Ok (argmax_from 0%nat q 1%nat qs')
  end.

(** [np.count_nonzero(mask)] *)
Definition np_count_nonzero (mask : list bool) : nat :=
  length (filter (fun b => b = true) mask).

(** [np.linalg.norm(p - cs) <= d] *)
Definition sqdist (p cs : point) : Q :=
  (p.1 - cs.1) * (p.1 - cs.1) + (p.2 - cs.2) * (p.2 - cs.2).

Definition norm_le (p cs : point) (d : Q) : bool :=
  Qle_bool 0 d && Qle_bool (sqdist p cs) (d * d).

(** ** Collaborators of the module *)

(** [evm.event_model.Cluster(Q, xy, xy_var, nsipm)] *)
Record Cluster : Type := mkCluster {
  cluster_Q : Q;
  posxy : point;
  var : point;
  nsipm : nat
}.

(** The sensor table [all_sipms]: a data frame, one row per sensor, read
    through its columns [X], [Y] and [Active]. *)
Record sipm_row : Type := mkRow {
  X : Q;
  Y : Q;
  Active : Z
}.

Definition DataFrame : Type := list sipm_row.

(** [column.values.astype(bool)] *)
Definition astype_bool (col : list Z) : list bool :=
  (fun z => negb (z =? 0)%Z) <$> col.

(** Modelled from the spec: [core.core_functions.weighted_mean_and_var],
    whose source is not part of the module.  Section 4.1: the weighted mean
    and the weighted variance, per axis, of [N] weighted points; the weights
    need not sum to one and are normalised by their sum. *)
Definition np_average (xs ws : list Q) : Q :=
  np_sum (zip_with Qmult xs ws) / np_sum ws.

Definition weighted_mean_and_var (pos : list point) (ws : list Q)
  : point * point :=
  let xs := fst <$> pos in
  let ys := snd <$> pos in
  let mx := np_average xs ws in
  let my := np_average ys ws in
  let vx := np_average ((fun x => (x - mx) * (x - mx)) <$> xs) ws in
  let vy := np_average ((fun y => (y - my) * (y - my)) <$> ys) ws in
  ((mx, my), (vx, vy)).

(** ** xy_algorithms.py *)

(** [barycenter(pos, qs)] *)
Definition barycenter (pos : list point) (qs : list Q) : result (list Cluster) :=
  if (length pos =? 0)%nat then Raise SipmEmptyList
  else if Qeq_bool (np_sum qs) 0 then Raise SipmZeroCharge
  else
    let '(mu, var) := weighted_mean_and_var pos qs in
    Ok [mkCluster (np_sum qs) mu var (length qs)].

(** [discard_sipms(sis, pos, qs)] *)
Definition discard_sipms (sis : list nat) (pos : list point) (qs : list Q)
  : result (list point * list Q) :=
  pos' ← np_delete pos sis;
  qs' ← np_delete qs sis;
  Ok (pos', qs').

(** [get_nearby_sipm_inds(cs, d, pos)] *)
Definition get_nearby_sipm_inds (cs : point) (d : Q) (pos : list point)
  : list nat :=
  np_where ((fun p => norm_le p cs d) <$> pos).

(** [count_masked(cs, d, datasipm, is_masked)] *)
Definition count_masked (cs : point) (d : Q) (datasipm : DataFrame)
    (is_masked : option (list bool)) : result nat :=
  match is_masked with
  | None => Ok 0%nat
  | Some is_masked =>
      let pos := zip (X <$> datasipm) (Y <$> datasipm) in
      let indices := get_nearby_sipm_inds cs d pos in
      sel ← np_take is_masked indices;
      Ok (np_count_nonzero (negb <$> sel))
  end.

(** The truth value of an [Optional[bool]] argument. *)
Definition truthy (b : option bool) : bool :=
  match b with
  | Some true => true
  | _ => false
  end.

(** The local variables of one pass through the body of the loop of
    [corona], as they stand when the pass ends. *)
Record locals : Type := mkLocals {
  hottest_sipm : nat;
  within_lm_radius : list nat;
  new_local_maximum : point;
  within_new_lm_radius : list nat;
  n_masked_neighbours : nat
}.

(** What one evaluation of the loop guard and body does: the loop ends
    (guard false, or [break]), or the pass completes with new [pos], [qs]
    and [c]. *)
Inductive iteration : Type :=
| Exit
| Next (l : locals) (pos : list point) (qs : list Q) (c : list Cluster).

Section Corona.

Variable all_sipms : DataFrame.
Variables Qthr Qlm lm_radius new_lm_radius : Q.
Variable msipm : Z.
Variable consider_masked : option bool.

(** [masked = all_sipms.Active.values.astype(bool) if consider_masked else None] *)
Definition masked : option (list bool) :=
  if truthy consider_masked then Some (astype_bool (Active <$> all_sipms))
  else None.

(** [len(within_new_lm_radius) >= msipm - n_masked_neighbours] *)
Definition enough_sipms (n_within n_masked : nat) : bool :=
  (msipm - Z.of_nat n_masked <=? Z.of_nat n_within)%Z.

(** Lines 146-155: the checks on the input and the threshold [Qthr]. *)
Definition corona_threshold (pos : list point) (qs : list Q)
  : result (list point * list Q) :=
  if (length pos =? 0)%nat then Raise SipmEmptyList
  else if Qeq_bool (np_sum qs) 0 then Raise SipmZeroCharge
  else
    let above_threshold := np_where ((fun q => Qle_bool Qthr q) <$> qs) in
    pos' ← np_take pos above_threshold;
    qs' ← np_take qs above_threshold;
    if (length pos' =? 0)%nat then Raise SipmEmptyListAboveQthr
    else if Qeq_bool (np_sum qs') 0 then Raise SipmZeroChargeAboveQthr
    else Ok (pos', qs').

(** Lines 159-178: the guard of the [while] and one pass through its body. *)
Definition corona_body (pos : list point) (qs : list Q) (c : list Cluster)
  : result iteration :=
  if (length qs =? 0)%nat then Ok Exit
  else
    hottest ← np_argmax qs;
    q_hottest ← getitem qs hottest;
    if negb (Qle_bool Qlm q_hottest) then Ok Exit
    else
      pos_hottest ← getitem pos hottest;
      let within_lm := get_nearby_sipm_inds pos_hottest lm_radius pos in
      pos_lm ← np_take pos within_lm;
      qs_lm ← np_take qs within_lm;
      b_lm ← barycenter pos_lm qs_lm;
      cl ← getitem b_lm 0%nat;
      let new_lm := posxy cl in
      let within_new := get_nearby_sipm_inds new_lm new_lm_radius pos in
      n_masked ← count_masked new_lm new_lm_radius all_sipms masked;
      c' ← (if enough_sipms (length within_new) n_masked
            then
              pos_new ← np_take pos within_new;
              qs_new ← np_take qs within_new;
              b ← barycenter pos_new qs_new;
              Ok (c ++ b)
            else Ok c);
      '(pos', qs') ← discard_sipms within_new pos qs;
      Ok (Next (mkLocals hottest within_lm new_lm within_new n_masked)
               pos' qs' c').

(** The [while] loop; [fuel] bounds the number of completed passes. *)
Fixpoint corona_loop (fuel : nat) (pos : list point) (qs : list Q)
    (c : list Cluster) : option (result (list Cluster)) :=
  match corona_body pos qs c with
  | Raise e => Some (Raise e)
  | Ok Exit => Some (Ok c)
  | Ok (Next _ pos' qs' c') =>
      match fuel with
      | O => None
      | S fuel' => corona_loop fuel' pos' qs' c'
      end
  end.

(** The loop again, with the provenance of the sensors as ghost state:
    [ids] names the sensors of the working set and is indexed and shrunk
    like [pos] and [qs]; [regions] collects, for every region whose
    barycenter was appended to [c], the names of its sensors. *)
Fixpoint corona_loop_ids (fuel : nat) (pos : list point) (qs : list Q)
    (ids : list nat) (c : list Cluster) (regions : list (list nat))
  : option (result (list Cluster * list (list nat))) :=
  match corona_body pos qs c with
  | Raise e => Some (Raise e)
  | Ok Exit => Some (Ok (c, regions))
  | Ok (Next l pos' qs' c') =>
      match np_take ids (within_new_lm_radius l),
            np_delete ids (within_new_lm_radius l) with
      | Ok region, Ok ids' =>
          let regions' :=
            if enough_sipms (length (within_new_lm_radius l))
                            (n_masked_neighbours l)
            then regions ++ [region] else regions in
          match fuel with
          | O => None
          | S fuel' => corona_loop_ids fuel' pos' qs' ids' c' regions'
          end
      | _, _ => Some (Raise IndexError)
      end
  end.

(** [corona(pos, qs, all_sipms, Qthr, Qlm, lm_radius, new_lm_radius, msipm,
    consider_masked)] *)
Definition corona (fuel : nat) (pos : list point) (qs : list Q)
  : option (result (list Cluster)) :=
  if negb (Qle_bool 0 lm_radius)
  then Some (Raise (AssertionError "lm_radius must be non-negative"))
  else if negb (Qle_bool 0 new_lm_radius)
  then Some (Raise (AssertionError "new_lm_radius must be non-negative"))
  else
    match corona_threshold pos qs with
    | Raise e => Some (Raise e)
    | Ok (pos', qs') =>
        match corona_loop fuel pos' qs' [] with
        | None => None
        | Some (Raise e) => Some (Raise e)
        | Some (Ok c) =>
            if (length c =? 0)%nat then Some (Raise ClusterEmptyList)
            else Some (Ok c)
        end
    end.

End Corona.

(** ** The registry lookup *)

(** The objects bound in the namespace of the module. *)
Inductive pyobject : Type :=
| PyModule (name : string)
| PyClass (name : string)
| PyFunction (name : string)
| PyTyping (name : string)
| PyOther (name : string).

(** The clustering strategies a caller may select. *)
Definition strategies : list string := ["barycenter"; "corona"].

(** [sys.modules[__name__].__dict__]: the names the interpreter binds in
    every module, then the imports and definitions of the file in order. *)
Definition module_bindings : list (string * pyobject) :=
  [ ("__name__", PyOther "__name__");
    ("__doc__", PyOther "__doc__");
    ("__package__", PyOther "__package__");
    ("__loader__", PyOther "__loader__");
    ("__spec__", PyOther "__spec__");
    ("__file__", PyOther "__file__");
    ("__cached__", PyOther "__cached__");
    ("__builtins__", PyOther "__builtins__");
    ("sys", PyModule "sys");
    ("np", PyModule "numpy");
    ("pd", PyModule "pandas");
    ("weighted_mean_and_var", PyFunction "weighted_mean_and_var");
    ("units", PyModule "system_of_units");
    ("SipmEmptyList", PyClass "SipmEmptyList");
    ("SipmZeroCharge", PyClass "SipmZeroCharge");
    ("SipmEmptyListAboveQthr", PyClass "SipmEmptyListAboveQthr");
    ("SipmZeroChargeAboveQthr", PyClass "SipmZeroChargeAboveQthr");
    ("ClusterEmptyList", PyClass "ClusterEmptyList");
    ("check_annotations", PyFunction "check_annotations");
    ("xy", PyClass "xy");
    ("Cluster", PyClass "Cluster");
    ("Optional", PyTyping "Optional");
    ("find_algorithm", PyFunction "find_algorithm");
    ("barycenter", PyFunction "barycenter");
    ("discard_sipms", PyFunction "discard_sipms");
    ("get_nearby_sipm_inds", PyFunction "get_nearby_sipm_inds");
    ("count_masked", PyFunction "count_masked");
    ("corona", PyFunction "corona") ].

Definition module_dict : gmap string pyobject := list_to_map module_bindings.

(** [find_algorithm(algoname)] *)
Definition find_algorithm (algoname : string) : result pyobject :=
  match module_dict !! algoname with
  | Some obj => Ok obj
  | None =>
      Raise (ValueError ("The algorithm <" +:+ algoname +:+ "> does not exist"))
  end.


(** ** Specification-level notions *)

(** Selection by a boolean mask: the entries of [arr] where [mask] holds. *)
Fixpoint compress {A} (mask : list bool) (arr : list A) : list A :=
  match mask, arr with
  | b :: mask', x :: arr' =>
      if b then x :: compress mask' arr' else compress mask' arr'
  | _, _ => []
  end.

(** What is left of a run of [corona_loop_ids] without its ghost state. *)
Definition forget_regions
    (r : option (result (list Cluster * list (list nat))))
  : option (result (list Cluster)) :=
  match r with
  | None => None
  | Some (Raise e) => Some (Raise e)
  | Some (Ok (c, _)) => Some (Ok c)
  end.

(** A region of sensors of the call's working set [pos0], [qs0] and the
    cluster that [barycenter] makes of it. *)
Definition emitted (pos0 : list point) (qs0 : list Q) (region : list nat)
    (cl : Cluster) : Prop :=
  ∃ p q, np_take pos0 region = Ok p ∧ np_take qs0 region = Ok q ∧
         barycenter p q = Ok [cl].

(** The number of rows of the sensor table that are inactive and lie within
    [d] of [cs]. *)
Definition inactive_within (cs : point) (d : Q) (table : DataFrame) : nat :=
  length (filter (fun r => Active r = 0%Z ∧ norm_le (X r, Y r) cs d = true) table).

(** The sensor table of the masking scenario: an active sensor at [(0,0)]
    and an inactive one at [(1,0)]. *)
Definition masked_table : DataFrame := [mkRow 0 0 1; mkRow 1 0 0].

(** The summed charge and the summed number of sensors of a list of
    clusters. *)
Definition total_charge (c : list Cluster) : Q := np_sum (cluster_Q <$> c).

Definition total_nsipm (c : list Cluster) : nat := sum_list_with nsipm c.

(** The failures that [corona] raises by name. *)
Definition corona_failure (e : exn) : Prop :=
  e = SipmEmptyList ∨ e = SipmZeroCharge ∨ e = SipmEmptyListAboveQthr
  ∨ e = SipmZeroChargeAboveQthr ∨ e = ClusterEmptyList
  ∨ ∃ msg, e = AssertionError msg.


(** ** Rational comparisons *)

Lemma Qle_bool_true x y : Qle_bool x y = true ↔ x <= y.
Proof. apply Qle_bool_iff. Qed.

Lemma Qle_bool_false x y : Qle_bool x y = false ↔ y < x.
Proof.
  split; intros H.
  - apply Qnot_le_lt. intros Hle. apply Qle_bool_iff in Hle. congruence.
  - destruct (Qle_bool x y) eqn:E; [|done].
    apply Qle_bool_iff in E. exfalso. apply (Qlt_not_le _ _ H E).
Qed.

Lemma sqdist_self p : sqdist p p == 0.
Proof. unfold sqdist. ring. Qed.

Lemma norm_le_self p d : 0 <= d → norm_le p p d = true.
Proof.
  intros Hd. unfold norm_le. apply andb_true_iff. split.
  - by apply Qle_bool_true.
  - apply Qle_bool_true. rewrite sqdist_self. by apply Qmult_le_0_compat.
Qed.

(** ** Index arrays *)

Lemma where_from_elem i mask j :
  j ∈ where_from i mask ↔ ∃ k, j = (i + k)%nat ∧ mask !! k = Some true.
Proof.
  revert i. induction mask as [|b mask IH]; intros i; simpl.
  - split; [by intros ?%elem_of_nil | by intros (k & _ & ?)].
  - assert (j ∈ where_from (S i) mask ↔
            ∃ k, j = (i + S k)%nat ∧ mask !! k = Some true) as IH'.
    { rewrite IH. split; intros (k & -> & Hk); exists k; split; auto; lia. }
    destruct b.
    + rewrite elem_of_cons, IH'. split.
      * intros [-> | (k & -> & Hk)]; [exists 0%nat | exists (S k)]; split; auto; lia.
      * intros ([|k] & -> & Hk); [left; lia | right; eauto].
    + rewrite IH'. split.
      * intros (k & -> & Hk). exists (S k). eauto.
      * intros ([|k] & -> & Hk); [done | eauto].
Qed.

Lemma where_from_bounds i mask j :
  j ∈ where_from i mask → (i ≤ j < i + length mask)%nat.
Proof.
  intros (k & -> & Hk)%where_from_elem. apply lookup_lt_Some in Hk. lia.
Qed.

Lemma np_take_length {A} (arr : list A) inds l :
  np_take arr inds = Ok l → length l = length inds.
Proof.
  revert l. induction inds as [|i inds IH]; intros l; simpl.
  - by intros [= <-].
  - destruct (getitem arr i); simpl; [|done].
    destruct (np_take arr inds); simpl; [|done].
    intros [= <-]. simpl. f_equal. by apply IH.
Qed.

Lemma np_take_where_from {A} (pre arr : list A) mask :
  length mask = length arr →
  np_take (pre ++ arr) (where_from (length pre) mask) = Ok (compress mask arr).
Proof.
  revert pre arr. induction mask as [|b mask IH]; intros pre [|x arr] Hlen;
    simplify_eq/=; try done.
  specialize (IH (pre ++ [x]) arr Hlen).
  rewrite length_app in IH. simpl in IH.
  replace (length pre + 1)%nat with (S (length pre)) in IH by lia.
  rewrite <- app_assoc in IH. simpl in IH.
  destruct b; simpl; [|done].
  unfold getitem. rewrite list_lookup_middle by done. simpl.
  rewrite IH. done.
Qed.

Lemma np_take_where {A} (arr : list A) mask :
  length mask = length arr →
  np_take arr (np_where mask) = Ok (compress mask arr).
Proof. intros H. apply (np_take_where_from [] arr mask H). Qed.

Lemma delete_from_ext {A} i inds inds' (arr : list A) :
  (∀ j, (i ≤ j)%nat → j ∈ inds ↔ j ∈ inds') →
  delete_from i inds arr = delete_from i inds' arr.
Proof.
  revert i. induction arr as [|x arr IH]; intros i Hext; simpl; [done|].
  rewrite (IH (S i)) by (intros j Hj; apply Hext; lia).
  rewrite (bool_decide_ext (i ∈ inds) (i ∈ inds')) by (apply Hext; lia).
  done.
Qed.

Lemma delete_from_where {A} i mask (arr : list A) :
  length mask = length arr →
  delete_from i (where_from i mask) arr = compress (negb <$> mask) arr.
Proof.
  revert i arr. induction mask as [|b mask IH]; intros i [|x arr] Hlen;
    simplify_eq/=; try done.
  destruct b; simpl.
  - rewrite bool_decide_eq_true_2 by apply list_elem_of_here.
    rewrite <- (IH (S i)) by done. apply delete_from_ext.
    intros j Hj. rewrite elem_of_cons. split; [intros [->|]; [lia|done] | auto].
  - rewrite bool_decide_eq_false_2.
    + f_equal. by apply IH.
    + intros Hin%where_from_bounds. lia.
Qed.

Lemma where_in_range mask n :
  length mask = n → forallb (fun i => i <? n)%nat (np_where mask) = true.
Proof.
  intros <-. apply forallb_forall. intros j Hj.
  apply list_elem_of_In, where_from_bounds in Hj.
  apply Nat.ltb_lt. lia.
Qed.

Lemma np_delete_where {A} (arr : list A) mask :
  length mask = length arr →
  np_delete arr (np_where mask) = Ok (compress (negb <$> mask) arr).
Proof.
  intros Hlen. unfold np_delete. rewrite where_in_range by done.
  f_equal. by apply delete_from_where.
Qed.

(** ** Selection by a mask *)

Lemma compress_length_le {A} mask (arr : list A) :
  (length (compress mask arr) ≤ length arr)%nat.
Proof.
  revert arr. induction mask as [|b mask IH]; intros [|x arr]; simpl; try lia.
  specialize (IH arr). destruct b; simpl; lia.
Qed.


Lemma compress_same_length {A B} mask (arr : list A) (arr' : list B) :
  length arr = length arr' →
  length (compress mask arr) = length (compress mask arr').
Proof.
  revert arr arr'.
  induction mask as [|b mask IH]; intros [|x arr] [|y arr'] Hlen;
    simplify_eq/=; try done.
  destruct b; simpl; auto.
Qed.

Lemma compress_sublist {A} mask (arr : list A) : compress mask arr `sublist_of` arr.
Proof.
  revert arr. induction mask as [|b mask IH]; intros [|x arr]; simpl;
    try apply sublist_nil_l.
  destruct b; [apply sublist_skip | apply sublist_cons]; apply IH.
Qed.

Lemma compress_split_perm {A} mask (arr : list A) :
  length mask = length arr →
  compress mask arr ++ compress (negb <$> mask) arr ≡ₚ arr.
Proof.
  revert arr. induction mask as [|b mask IH]; intros [|x arr] Hlen;
    simplify_eq/=; try done.
  specialize (IH arr Hlen). destruct b; simpl.
  - by f_equiv.
  - rewrite <- Permutation_middle. by f_equiv.
Qed.

Lemma np_take_compress {A} (arr : list A) ids l mask :
  np_take arr ids = Ok l →
  np_take arr (compress mask ids) = Ok (compress mask l).
Proof.
  revert ids l. induction mask as [|b mask IH]; intros [|i ids] l; simpl;
    try by intros [= <-].
  - intros _. by destruct l.
  - destruct (getitem arr i) eqn:Ei; simpl; [|done].
    destruct (np_take arr ids) eqn:Et; simpl; [|done].
    intros [= <-]. specialize (IH ids _ Et).
    destruct b; simpl; [|done]. by rewrite Ei, IH.
Qed.

Lemma np_take_seq {A} (pre arr : list A) :
  np_take (pre ++ arr) (seq (length pre) (length arr)) = Ok arr.
Proof.
  revert pre. induction arr as [|x arr IH]; intros pre; simpl; [done|].
  unfold getitem. rewrite list_lookup_middle by done. simpl.
  specialize (IH (pre ++ [x])). rewrite length_app, <- app_assoc in IH.
  simpl in IH. replace (length pre + 1)%nat with (S (length pre)) in IH by lia.
  by rewrite IH.
Qed.

(** ** The result monad *)

Lemma bind_Ok {A B} (m : result A) (k : A → result B) b :
  m ≫= k = Ok b ↔ ∃ a, m = Ok a ∧ k a = Ok b.
Proof.
  destruct m as [a|e]; simpl; split.
  - intros H. by exists a.
  - by intros (a' & [= <-] & H).
  - done.
  - by intros (a' & [=] & _).
Qed.

Ltac bind_inv H x Hx :=
  apply bind_Ok in H as (x & Hx & H).

(** ** The hottest sensor *)

Lemma argmax_from_lt best qbest i qs :
  (best < i)%nat → (argmax_from best qbest i qs < i + length qs)%nat.
Proof.
  revert best qbest i. induction qs as [|q qs IH]; intros best qbest i Hlt;
    simpl; [lia|].
  destruct (Qle_bool q qbest).
  - specialize (IH best qbest (S i)). lia.
  - specialize (IH i q (S i)). lia.
Qed.

Lemma np_argmax_lt qs h : np_argmax qs = Ok h → (h < length qs)%nat.
Proof.
  destruct qs as [|q qs]; simpl; [done|]. intros [= <-].
  pose proof (argmax_from_lt 0 q 1 qs). lia.
Qed.

Lemma np_argmax_nonempty qs : qs ≠ [] → ∃ h, np_argmax qs = Ok h.
Proof. destruct qs; [done|]. simpl. eauto. Qed.



(** ** barycenter *)

Lemma barycenter_Ok pos qs b :
  barycenter pos qs = Ok b →
  pos ≠ [] ∧ ¬ np_sum qs == 0 ∧
  b = [mkCluster (np_sum qs) (weighted_mean_and_var pos qs).1
                 (weighted_mean_and_var pos qs).2 (length qs)].
Proof.
  unfold barycenter. destruct pos as [|p pos]; simpl; [done|].
  destruct (Qeq_bool (np_sum qs) 0) eqn:E; [done|].
  destruct (weighted_mean_and_var (p :: pos) qs) as [mu v].
  intros [= <-]. split; [done|]. split; [|done].
  intros Hz. apply Qeq_bool_iff in Hz. congruence.
Qed.

Lemma barycenter_not_empty pos qs :
  pos ≠ [] → barycenter pos qs ≠ Raise SipmEmptyList.
Proof.
  unfold barycenter. destruct pos as [|p pos]; [done|]. intros _. simpl.
  destruct (Qeq_bool (np_sum qs) 0); [done|].
  by destruct (weighted_mean_and_var (p :: pos) qs).
Qed.

(** ** Sensors at one position *)

Lemma sqdist_le_0 p cs : sqdist p cs <= 0 → p.1 == cs.1 ∧ p.2 == cs.2.
Proof.
  unfold sqdist. set (a := p.1 - cs.1). set (b := p.2 - cs.2). intros H.
  assert (a == 0 ∧ b == 0) as [Ha Hb].
  { assert (0 <= a * a) by nra. assert (0 <= b * b) by nra.
    assert (a * a == 0) as Ha by lra. assert (b * b == 0) as Hb by lra.
    apply Qmult_integral in Ha, Hb. tauto. }
  unfold a, b in *. split; lra.
Qed.

Lemma norm_le_0 p cs d : d == 0 → norm_le p cs d = true → p.1 == cs.1 ∧ p.2 == cs.2.
Proof.
  intros Hd [_ H%Qle_bool_true]%andb_true_iff. apply sqdist_le_0.
  rewrite Hd in H. lra.
Qed.

Lemma norm_le_same p cs d :
  0 <= d → p.1 == cs.1 → p.2 == cs.2 → norm_le p cs d = true.
Proof.
  intros Hd H1 H2. unfold norm_le. apply andb_true_iff. split.
  - by apply Qle_bool_true.
  - apply Qle_bool_true. unfold sqdist. rewrite H1, H2.
    assert (0 <= d * d) by (by apply Qmult_le_0_compat). lra.
Qed.

Lemma compress_fmap_Forall {A} (f : A → bool) (arr : list A) :
  Forall (fun x => f x = true) (compress (f <$> arr) arr).
Proof.
  induction arr as [|x arr IH]; csimpl; [constructor|].
  destruct (f x) eqn:E; [by constructor | done].
Qed.

Lemma np_sum_weighted_const a xs ws :
  Forall (fun x => x == a) xs → length xs = length ws →
  np_sum (zip_with Qmult xs ws) == a * np_sum ws.
Proof.
  intros Hall. revert ws.
  induction Hall as [|x xs Hx Hall IH]; intros [|w ws] Hlen; simplify_eq/=.
  - ring.
  - rewrite IH by done. rewrite Hx. ring.
Qed.

Lemma np_average_const a xs ws :
  Forall (fun x => x == a) xs → length xs = length ws → ¬ np_sum ws == 0 →
  np_average xs ws == a.
Proof.
  intros Hall Hlen Hsum. unfold np_average.
  rewrite np_sum_weighted_const by done. by field.
Qed.

(** ** count_masked *)

Lemma zip_columns (table : DataFrame) :
  zip (X <$> table) (Y <$> table) = (fun r => (X r, Y r)) <$> table.
Proof. induction table as [|r table IH]; csimpl; [done|]. by f_equal. Qed.

Lemma count_inactive cs d (table : DataFrame) :
  np_count_nonzero
    (negb <$> compress ((fun p => norm_le p cs d) <$> ((fun r => (X r, Y r)) <$> table))
                       (astype_bool (Active <$> table)))
  = inactive_within cs d table.
Proof.
  unfold np_count_nonzero, inactive_within.
  induction table as [|r table IH]; [done|]. csimpl.
  rewrite (filter_cons _ r).
  destruct (norm_le (X r, Y r) cs d) eqn:En; csimpl.
  - rewrite filter_cons.
    destruct (Z.eqb_spec (Active r) 0) as [Hz|Hz]; simpl.
    + rewrite decide_True by done. simpl. by f_equal.
    + rewrite decide_False by (by intros [? _]). done.
  - rewrite decide_False by (by intros [_ ?]). done.
Qed.

Lemma count_masked_Some cs d (table : DataFrame) :
  count_masked cs d table (Some (astype_bool (Active <$> table)))
  = Ok (inactive_within cs d table).
Proof.
  unfold count_masked, get_nearby_sipm_inds. rewrite zip_columns.
  rewrite np_take_where.
  - simpl. by rewrite count_inactive.
  - unfold astype_bool. by rewrite !length_fmap.
Qed.

Lemma corona_loop_unfold all_sipms Qlm lm_radius new_lm_radius msipm
    consider_masked fuel pos qs c :
  corona_loop all_sipms Qlm lm_radius new_lm_radius msipm consider_masked
    fuel pos qs c
  = match corona_body all_sipms Qlm lm_radius new_lm_radius msipm
            consider_masked pos qs c with
    | Raise e => Some (Raise e)
    | Ok Exit => Some (Ok c)
    | Ok (Next _ pos' qs' c') =>
        match fuel with
        | O => None
        | S fuel' =>
            corona_loop all_sipms Qlm lm_radius new_lm_radius msipm
              consider_masked fuel' pos' qs' c'
        end
    end.
Proof. by destruct fuel. Qed.

Section CoronaFacts.

Variable all_sipms : DataFrame.
Variables Qthr Qlm lm_radius new_lm_radius : Q.
Variable msipm : Z.
Variable consider_masked : option bool.

Abbreviation masked := (masked all_sipms consider_masked).
Abbreviation enough_sipms := (enough_sipms msipm).
Abbreviation corona_threshold := (corona_threshold Qthr).
Abbreviation corona_body :=
  (corona_body all_sipms Qlm lm_radius new_lm_radius msipm consider_masked).
Abbreviation corona_loop :=
  (corona_loop all_sipms Qlm lm_radius new_lm_radius msipm consider_masked).
Abbreviation corona_loop_ids :=
  (corona_loop_ids all_sipms Qlm lm_radius new_lm_radius msipm consider_masked).
Abbreviation corona :=
  (corona all_sipms Qthr Qlm lm_radius new_lm_radius msipm consider_masked).

Lemma count_masked_corona cs d :
  count_masked cs d all_sipms masked
  = Ok (if truthy consider_masked then inactive_within cs d all_sipms else 0%nat).
Proof.
  unfold masked. destruct (truthy consider_masked); [|done].
  apply count_masked_Some.
Qed.

(** What a completed pass through the body did. *)
Lemma corona_body_Next pos qs c l pos' qs' c' :
  corona_body pos qs c = Ok (Next l pos' qs' c') →
  let region := within_new_lm_radius l in
  region = get_nearby_sipm_inds (new_local_maximum l) new_lm_radius pos
  ∧ count_masked (new_local_maximum l) new_lm_radius all_sipms masked
    = Ok (n_masked_neighbours l)
  ∧ (if enough_sipms (length region) (n_masked_neighbours l)
     then ∃ p q b, np_take pos region = Ok p ∧ np_take qs region = Ok q ∧
                   barycenter p q = Ok b ∧ c' = c ++ b
     else c' = c)
  ∧ discard_sipms region pos qs = Ok (pos', qs').
Proof.
  unfold corona_body. intros H.
  destruct (length qs =? 0)%nat; [done|].
  bind_inv H hottest Hh. bind_inv H q_hot Hq.
  destruct (negb (Qle_bool Qlm q_hot)); [done|].
  bind_inv H pos_hot Hp. bind_inv H pos_lm Hplm. bind_inv H qs_lm Hqlm.
  bind_inv H b_lm Hb. bind_inv H cl Hcl. bind_inv H n_masked Hn.
  bind_inv H c1 Hc. bind_inv H pq Hd. destruct pq as [p1 q1].
  injection H as <- <- <- <-. simpl.
  repeat split; [done| |done].
  destruct (enough_sipms _ n_masked); [|by injection Hc as <-].
  bind_inv Hc p Hp'. bind_inv Hc q Hq'. bind_inv Hc b Hb'.
  injection Hc as <-. by exists p, q, b.
Qed.

(** The same with equally long [pos] and [qs]: the region is a mask over
    the working set, and the pass keeps exactly the sensors outside it. *)
Lemma corona_body_Next_mask pos qs c l pos' qs' c' :
  corona_body pos qs c = Ok (Next l pos' qs' c') →
  length pos = length qs →
  let mask := (fun p => norm_le p (new_local_maximum l) new_lm_radius) <$> pos in
  within_new_lm_radius l = np_where mask
  ∧ pos' = compress (negb <$> mask) pos
  ∧ qs' = compress (negb <$> mask) qs
  ∧ (if enough_sipms (length (within_new_lm_radius l)) (n_masked_neighbours l)
     then ∃ cl, barycenter (compress mask pos) (compress mask qs) = Ok [cl] ∧
                c' = c ++ [cl]
     else c' = c).
Proof.
  intros H Hlen mask.
  apply corona_body_Next in H as (Hreg & _ & Hacc & Hdis).
  fold mask in Hreg. unfold get_nearby_sipm_inds in Hreg. fold mask in Hreg.
  assert (length mask = length pos) as Hm by (unfold mask; by rewrite length_fmap).
  rewrite Hreg in *. unfold discard_sipms in Hdis.
  rewrite !np_delete_where in Hdis by congruence. simpl in Hdis.
  injection Hdis as <- <-. repeat split.
  destruct (enough_sipms _ _); [|done].
  destruct Hacc as (p & q & b & Hp & Hq & Hb & ->).
  rewrite np_take_where in Hp by congruence.
  rewrite np_take_where in Hq by congruence.
  injection Hp as <-. injection Hq as <-.
  pose proof (barycenter_Ok _ _ _ Hb) as (_ & _ & ->). eauto.
Qed.

(** Forgetting the ghost state of [corona_loop_ids] gives [corona_loop]. *)
Lemma corona_loop_ids_erase fuel pos qs ids c regions :
  length pos = length qs → length ids = length pos →
  corona_loop fuel pos qs c
  = forget_regions (corona_loop_ids fuel pos qs ids c regions).
Proof.
  revert pos qs ids c regions.
  induction fuel as [|fuel IH]; intros pos qs ids c regions Hlen Hids; simpl;
    destruct (corona_body pos qs c) as [[|l pos' qs' c']|e] eqn:Hbody; try done;
    pose proof (corona_body_Next_mask _ _ _ _ _ _ _ Hbody Hlen)
      as (Hreg & Hpos & Hqs & _);
    rewrite Hreg, np_take_where, np_delete_where
      by (rewrite length_fmap; congruence);
    simpl; [done|].
  rewrite <- Hreg. apply IH; subst pos' qs'.
  - by apply compress_same_length.
  - by apply compress_same_length.
Qed.

Lemma corona_loop_ids_inv pos0 qs0 fuel pos qs ids c regions c_out regions_out :
  length pos = length qs →
  np_take pos0 ids = Ok pos → np_take qs0 ids = Ok qs →
  NoDup (concat regions ++ ids) →
  Forall2 (emitted pos0 qs0) regions c →
  corona_loop_ids fuel pos qs ids c regions = Some (Ok (c_out, regions_out)) →
  NoDup (concat regions_out) ∧ Forall2 (emitted pos0 qs0) regions_out c_out.
Proof.
  revert pos qs ids c regions.
  induction fuel as [|fuel IH]; intros pos qs ids c regions Hlen Hpos Hqs Hnd Hem;
    simpl;
    destruct (corona_body pos qs c) as [[|l pos' qs' c']|e] eqn:Hbody; try done;
    try (intros [= <- <-]; split; [by apply NoDup_app in Hnd as (? & _ & _) | done]).
  all: pose proof (np_take_length _ _ _ Hpos) as Hids.
  all: pose proof (corona_body_Next_mask _ _ _ _ _ _ _ Hbody Hlen)
         as (Hreg & Hpos' & Hqs' & Hacc).
  all: rewrite Hreg, np_take_where, np_delete_where
         by (rewrite length_fmap; congruence).
  all: simpl.
  { done. }
  set (mask := (fun p => norm_le p (new_local_maximum l) new_lm_radius) <$> pos) in *.
  assert (length mask = length ids) as Hm
      by (unfold mask; rewrite length_fmap; congruence).
  rewrite <- Hreg. apply IH.
  - subst pos' qs'. by apply compress_same_length.
  - subst pos'. by apply np_take_compress.
  - subst qs'. by apply np_take_compress.
  - destruct (enough_sipms _ _).
    + rewrite concat_app. simpl. rewrite app_nil_r, <- app_assoc.
      by rewrite compress_split_perm.
    + apply (sublist_NoDup _ _ Hnd).
      apply sublist_app; [done | apply compress_sublist].
  - destruct (enough_sipms _ _); [|by subst c'].
    destruct Hacc as (cl & Hb & ->). apply Forall2_app; [done|].
    constructor; [|constructor].
    exists (compress mask pos), (compress mask qs).
    split_and!; [by apply np_take_compress | by apply np_take_compress | done].
Qed.





(** The checks of lines 146-155 on equally long [pos] and [qs], with the
    thresholding written as a selection by the mask [Qthr <= q]. *)
Lemma corona_threshold_mask pos qs :
  length pos = length qs → pos ≠ [] → ¬ np_sum qs == 0 →
  let keep := (fun q => Qle_bool Qthr q) <$> qs in
  corona_threshold pos qs
  = if (length (compress keep pos) =? 0)%nat then Raise SipmEmptyListAboveQthr
    else if Qeq_bool (np_sum (compress keep qs)) 0
         then Raise SipmZeroChargeAboveQthr
         else Ok (compress keep pos, compress keep qs).
Proof.
  intros Hlen Hpos Hsum keep. unfold corona_threshold.
  destruct pos as [|p pos]; [done|]. simpl length at 1. simpl Nat.eqb at 1.
  destruct (Qeq_bool (np_sum qs) 0) eqn:E.
  { apply Qeq_bool_iff in E. done. }
  fold keep.
  assert (length keep = length qs) as Hk by (unfold keep; by rewrite length_fmap).
  rewrite !np_take_where by congruence. done.
Qed.

Lemma corona_checks_passed fuel pos qs :
  0 <= lm_radius → 0 <= new_lm_radius →
  corona fuel pos qs
  = match corona_threshold pos qs with
    | Raise e => Some (Raise e)
    | Ok (pos', qs') =>
        match corona_loop fuel pos' qs' [] with
        | None => None
        | Some (Raise e) => Some (Raise e)
        | Some (Ok c) =>
            if (length c =? 0)%nat then Some (Raise ClusterEmptyList)
            else Some (Ok c)
        end
    end.
Proof.
  intros H1%Qle_bool_true H2%Qle_bool_true. unfold corona.
  by rewrite H1, H2.
Qed.

Lemma corona_threshold_Ok pos qs pos' qs' :
  length pos = length qs →
  corona_threshold pos qs = Ok (pos', qs') →
  let keep := (fun q => Qle_bool Qthr q) <$> qs in
  pos' = compress keep pos ∧ qs' = compress keep qs ∧ pos' ≠ []
  ∧ ¬ np_sum qs' == 0.
Proof.
  intros Hlen H keep.
  assert (pos ≠ [] ∧ ¬ np_sum qs == 0) as [Hpos Hsum].
  { unfold corona_threshold in H. destruct pos; [done|]. simpl in H.
    destruct (Qeq_bool (np_sum qs) 0) eqn:E; [done|].
    split; [done|]. intros Hz%Qeq_bool_iff. congruence. }
  rewrite corona_threshold_mask in H by done. fold keep in H.
  destruct (compress keep pos) as [|p ps] eqn:Ep; [done|]. simpl in H.
  destruct (Qeq_bool (np_sum (compress keep qs)) 0) eqn:E; [done|].
  injection H as <- <-. split_and!; try done.
  intros Hz%Qeq_bool_iff. congruence.
Qed.


(** C2. A call of [corona] with non-negative radii raises [SipmEmptyList]
    when the event has no sensors and [SipmZeroCharge] when the supplied
    charges sum to exactly zero, whatever [Qthr] is.  Otherwise the sensors
    with charge strictly below [Qthr] are dropped, those with charge equal to
    [Qthr] being kept; the call raises [SipmEmptyListAboveQthr] when none is
    left, [SipmZeroChargeAboveQthr] when the charges left sum to exactly
    zero, and else enters the loop with exactly the kept sensors.  The four
    failures are distinct. *)
Theorem corona_failure_order fuel pos qs :
  0 <= lm_radius → 0 <= new_lm_radius →
  let keep := (fun q => Qle_bool Qthr q) <$> qs in
  (pos = [] → corona fuel pos qs = Some (Raise SipmEmptyList))
  ∧ (pos ≠ [] → np_sum qs == 0 →
     corona fuel pos qs = Some (Raise SipmZeroCharge))
  ∧ (∀ i q, qs !! i = Some q →
       (keep !! i = Some false ↔ q < Qthr) ∧ (q == Qthr → keep !! i = Some true))
  ∧ (length pos = length qs → pos ≠ [] → ¬ np_sum qs == 0 →
     compress keep pos = [] →
     corona fuel pos qs = Some (Raise SipmEmptyListAboveQthr))
  ∧ (length pos = length qs → pos ≠ [] → ¬ np_sum qs == 0 →
     compress keep pos ≠ [] → np_sum (compress keep qs) == 0 →
     corona fuel pos qs = Some (Raise SipmZeroChargeAboveQthr))
  ∧ (length pos = length qs → pos ≠ [] → ¬ np_sum qs == 0 →
     compress keep pos ≠ [] → ¬ np_sum (compress keep qs) == 0 →
     corona_threshold pos qs = Ok (compress keep pos, compress keep qs))
  ∧ NoDup [SipmEmptyList; SipmZeroCharge;
           SipmEmptyListAboveQthr; SipmZeroChargeAboveQthr].
Proof.
  intros Hlm Hnew keep. rewrite corona_checks_passed by done.
  split_and!.
  - intros ->. done.
  - intros Hpos Hsum%Qeq_bool_iff. unfold corona_threshold.
    destruct pos; [done|]. simpl. by rewrite Hsum.
  - intros i q Hq. unfold keep. rewrite list_lookup_fmap, Hq. simpl. split.
    + rewrite <- Qle_bool_false. split; [by intros [= ->] | by intros ->].
    + intros Heq. f_equal. apply Qle_bool_true. rewrite Heq. apply Qle_refl.
  - intros Hlen Hpos Hsum Hkeep.
    rewrite corona_threshold_mask by done. fold keep. by rewrite Hkeep.
  - intros Hlen Hpos Hsum Hkeep Hsum'%Qeq_bool_iff.
    rewrite corona_threshold_mask by done. fold keep.
    destruct (compress keep pos); [done|]. simpl. by rewrite Hsum'.
  - intros Hlen Hpos Hsum Hkeep Hsum'.
    rewrite corona_threshold_mask by done. fold keep.
    destruct (compress keep pos); [done|]. simpl.
    destruct (Qeq_bool (np_sum (compress keep qs)) 0) eqn:E; [|done].
    by apply Qeq_bool_iff in E.
  - repeat (constructor;
            [rewrite ?elem_of_cons, ?elem_of_nil; intuition discriminate|]).
    constructor.
Qed.

(** C5. When the input passes the checks and [Qlm] is strictly greater than
    every charge left after thresholding, the first evaluation of the loop
    stops at the [break], no pass is completed, the list of clusters stays
    empty and [corona] raises [ClusterEmptyList]. *)
Theorem corona_Qlm_above_max fuel pos qs pos' qs' :
  0 <= lm_radius → 0 <= new_lm_radius →
  corona_threshold pos qs = Ok (pos', qs') →
  (∀ q, q ∈ qs' → q < Qlm) →
  corona_body pos' qs' [] = Ok Exit
  ∧ corona_loop 0 pos' qs' [] = Some (Ok [])
  ∧ corona fuel pos qs = Some (Raise ClusterEmptyList).
Proof.
  intros Hlm Hnew Hthr Hmax.
  assert (corona_body pos' qs' [] = Ok Exit) as Hbody.
  { unfold corona_body.
    destruct (decide (qs' = [])) as [->|Hne]; [done|].
    replace (length qs' =? 0)%nat with false by (by destruct qs').
    destruct (np_argmax_nonempty qs' Hne) as [h Hh].
    rewrite Hh. simpl.
    pose proof (np_argmax_lt _ _ Hh) as Hlt.
    destruct (lookup_lt_is_Some_2 _ _ Hlt) as [q Hq].
    unfold getitem. rewrite Hq. simpl.
    assert (q < Qlm) as Hq' by (apply Hmax; by eapply list_elem_of_lookup_2).
    apply Qle_bool_false in Hq'. by rewrite Hq'. }
  assert (∀ n, corona_loop n pos' qs' [] = Some (Ok [])) as Hloop.
  { intros [|n]; simpl; by rewrite Hbody. }
  split_and!; [done | apply Hloop |].
  rewrite corona_checks_passed by done. by rewrite Hthr, Hloop.
Qed.

(** The acceptance test of a completed pass (lines 169-175). *)
Lemma corona_acceptance pos qs c l pos' qs' c' :
  corona_body pos qs c = Ok (Next l pos' qs' c') →
  let region := within_new_lm_radius l in
  let n_masked := n_masked_neighbours l in
  region = get_nearby_sipm_inds (new_local_maximum l) new_lm_radius pos
  ∧ n_masked = (if truthy consider_masked
                then inactive_within (new_local_maximum l) new_lm_radius all_sipms
                else 0%nat)
  ∧ ((msipm - Z.of_nat n_masked ≤ Z.of_nat (length region))%Z ↔
     ∃ p q cl, np_take pos region = Ok p ∧ np_take qs region = Ok q ∧
               barycenter p q = Ok [cl] ∧ c' = c ++ [cl])
  ∧ (¬ (msipm - Z.of_nat n_masked ≤ Z.of_nat (length region))%Z → c' = c).
Proof.
  intros H region n_masked.
  apply corona_body_Next in H as (Hreg & Hn & Hacc & _).
  fold region n_masked in Hreg, Hn, Hacc.
  rewrite count_masked_corona in Hn. injection Hn as Hn.
  split_and!; [done | done | |].
  - unfold enough_sipms in Hacc.
    destruct (Z.leb_spec (msipm - Z.of_nat n_masked) (Z.of_nat (length region)))
      as [Hle|Hgt].
    + split; [intros _ | done].
      destruct Hacc as (p & q & b & Hp & Hq & Hb & ->).
      pose proof (barycenter_Ok _ _ _ Hb) as (_ & _ & Hcl).
      rewrite Hcl in *. eauto 10.
    + split; [lia|]. intros (p & q & cl & _ & _ & _ & Hc). subst c'.
      apply (f_equal length) in Hc. rewrite length_app in Hc. simpl in Hc. lia.
  - intros Hnot. unfold enough_sipms in Hacc.
    destruct (Z.leb_spec (msipm - Z.of_nat n_masked) (Z.of_nat (length region)));
      [lia | done].
Qed.

(** A call that returns has passed the checks and left the loop with a
    list of clusters that is not empty. *)
Lemma corona_Ok fuel pos qs c :
  corona fuel pos qs = Some (Ok c) →
  ∃ pos' qs', corona_threshold pos qs = Ok (pos', qs')
              ∧ corona_loop fuel pos' qs' [] = Some (Ok c) ∧ c ≠ [].
Proof.
  unfold corona.
  destruct (negb (Qle_bool 0 lm_radius)); [done|].
  destruct (negb (Qle_bool 0 new_lm_radius)); [done|].
  destruct (corona_threshold pos qs) as [[pos' qs']|e]; [|done].
  destruct (corona_loop fuel pos' qs' []) as [[c'|e]|] eqn:Hloop; try done.
  destruct c' as [|cl c']; simpl; [done|]. intros [= <-].
  by exists pos', qs'.
Qed.

(** C7. With equally long [pos] and [qs]: a completed pass leaves in the
    working set exactly the sensors outside its region, whether or not the
    region was accepted; when the loop returns the clusters [c], the regions
    they were made of, named by the indices of the sensors in the working
    set the loop started with, have no index in common and none twice, so
    that every sensor is in at most one emitted cluster; and so it is for
    the clusters that a call of [corona] returns, over the sensors left by
    the threshold. *)
Theorem corona_sensor_in_one_cluster pos qs :
  length pos = length qs →
  (∀ c l pos' qs' c',
     corona_body pos qs c = Ok (Next l pos' qs' c') →
     let mask := (fun p => norm_le p (new_local_maximum l) new_lm_radius) <$> pos in
     within_new_lm_radius l = np_where mask
     ∧ pos' = compress (negb <$> mask) pos
     ∧ qs' = compress (negb <$> mask) qs)
  ∧ (∀ fuel c,
       corona_loop fuel pos qs [] = Some (Ok c) →
       ∃ regions,
         corona_loop_ids fuel pos qs (seq 0 (length pos)) [] []
         = Some (Ok (c, regions))
         ∧ Forall2 (emitted pos qs) regions c
         ∧ NoDup (concat regions))
  ∧ (∀ fuel c,
       corona fuel pos qs = Some (Ok c) →
       ∃ pos' qs' regions,
         corona_threshold pos qs = Ok (pos', qs')
         ∧ corona_loop_ids fuel pos' qs' (seq 0 (length pos')) [] []
           = Some (Ok (c, regions))
         ∧ Forall2 (emitted pos' qs') regions c
         ∧ NoDup (concat regions)).
Proof.
  assert (∀ pos qs fuel c,
            length pos = length qs →
            corona_loop fuel pos qs [] = Some (Ok c) →
            ∃ regions,
              corona_loop_ids fuel pos qs (seq 0 (length pos)) [] []
              = Some (Ok (c, regions))
              ∧ Forall2 (emitted pos qs) regions c
              ∧ NoDup (concat regions)) as Hrun.
  { clear pos qs. intros pos qs fuel c Hlen Hloop.
    rewrite (corona_loop_ids_erase fuel pos qs (seq 0 (length pos)) [] [])
      in Hloop by (by rewrite ?length_seq).
    destruct (corona_loop_ids fuel pos qs (seq 0 (length pos)) [] [])
      as [[[c1 regions]|e]|] eqn:Hids; simplify_eq/=.
    exists regions. split; [done|].
    assert (NoDup (concat regions) ∧ Forall2 (emitted pos qs) regions c) as [? ?];
      [|done].
    eapply (corona_loop_ids_inv pos qs); [exact Hlen | | | | | exact Hids].
    - apply (np_take_seq [] pos).
    - rewrite Hlen. apply (np_take_seq [] qs).
    - simpl. apply NoDup_seq.
    - constructor. }
  intros Hlen. split_and!.
  - intros c l pos' qs' c' Hbody mask.
    pose proof (corona_body_Next_mask _ _ _ _ _ _ _ Hbody Hlen) as (? & ? & ? & _).
    done.
  - intros fuel c. by apply Hrun.
  - intros fuel c (pos' & qs' & Hthr & Hloop & _)%corona_Ok.
    exists pos', qs'.
    destruct (corona_threshold_Ok _ _ _ _ Hlen Hthr) as (Hp & Hq & _).
    destruct (Hrun pos' qs' fuel c) as (regions & ?); [|done|eauto].
    subst pos' qs'. by apply compress_same_length.
Qed.

End CoronaFacts.

(** C9. With a non-negative radius [lm_radius] and equally long [pos] and
    [qs], the hottest sensor is at distance zero of its own position and so
    belongs to the neighbourhood [within_lm_radius] of the refinement step;
    the neighbourhood is not empty and [barycenter] does not raise
    [SipmEmptyList] on it. *)
Theorem hottest_within_lm_radius lm_radius pos qs hottest pos_hottest :
  0 <= lm_radius →
  length pos = length qs →
  np_argmax qs = Ok hottest →
  getitem pos hottest = Ok pos_hottest →
  let within := get_nearby_sipm_inds pos_hottest lm_radius pos in
  sqdist pos_hottest pos_hottest == 0
  ∧ hottest ∈ within
  ∧ ∃ pos_lm qs_lm,
      np_take pos within = Ok pos_lm ∧ np_take qs within = Ok qs_lm ∧
      pos_lm ≠ [] ∧ barycenter pos_lm qs_lm ≠ Raise SipmEmptyList.
Proof.
  intros Hd Hlen Hh Hp within. split; [apply sqdist_self|].
  unfold getitem in Hp.
  destruct (pos !! hottest) as [p|] eqn:Hlk; simplify_eq/=.
  assert (hottest ∈ within) as Hin.
  { unfold within, get_nearby_sipm_inds, np_where.
    apply where_from_elem. exists hottest. split; [done|].
    rewrite list_lookup_fmap, Hlk. simpl. f_equal. by apply norm_le_self. }
  split; [done|].
  set (mask := (fun p => norm_le p pos_hottest lm_radius) <$> pos).
  assert (length mask = length pos) as Hm by (unfold mask; by rewrite length_fmap).
  exists (compress mask pos), (compress mask qs).
  assert (np_take pos within = Ok (compress mask pos)) as Htake
      by (by apply np_take_where).
  split_and!; [done | apply np_take_where; congruence | |].
  - intros Hnil. apply np_take_length in Htake. rewrite Hnil in Htake.
    destruct within; [by apply elem_of_nil in Hin | done].
  - apply barycenter_not_empty. intros Hnil.
    apply np_take_length in Htake. rewrite Hnil in Htake.
    destruct within; [by apply elem_of_nil in Hin | done].
Qed.

(** ** Concrete runs *)

(** C1. Two sensors at [(0,0)] and [(10,0)] with charge 5 each, [Qthr = 0],
    [Qlm = 4], [lm_radius = 15], [new_lm_radius = 1], [msipm = 1], masking
    off.  The input passes the checks; the refined peak is [(5,0)], no sensor
    is within 1 of it, the region is empty and rejected, and the pass ends
    with the working set and the list of clusters it started with.  No bound
    on the number of passes lets the call return. *)
Theorem corona_empty_region_never_returns all_sipms fuel :
  let pos := [(0, 0); (10, 0)] in
  let qs := [5; 5] in
  corona_threshold 0 pos qs = Ok (pos, qs)
  ∧ (∃ l, corona_body all_sipms 4 15 1 1 (Some false) pos qs []
          = Ok (Next l pos qs [])
          ∧ (new_local_maximum l).1 == 5 ∧ (new_local_maximum l).2 == 0
          ∧ within_new_lm_radius l = [])
  ∧ corona all_sipms 0 4 15 1 1 (Some false) fuel pos qs = None.
Proof.
  intros pos qs.
  assert (∃ l, corona_body all_sipms 4 15 1 1 (Some false) pos qs []
               = Ok (Next l pos qs [])
               ∧ (new_local_maximum l).1 == 5 ∧ (new_local_maximum l).2 == 0
               ∧ within_new_lm_radius l = []) as Hbody.
  { eexists. split; [vm_compute; reflexivity|]. by vm_compute. }
  split_and!; [done | done |].
  destruct Hbody as (l & Hbody & _).
  assert (∀ n, corona_loop all_sipms 4 15 1 1 (Some false) n pos qs [] = None)
    as Hloop.
  { intros n. induction n as [|n IH]; rewrite corona_loop_unfold, Hbody; done. }
  unfold corona. change (corona_threshold 0 pos qs) with (Ok (pos, qs)).
  simpl. by rewrite Hloop.
Qed.

(** C3. [barycenter] raises [SipmEmptyList] when [pos] is empty, raises
    [SipmZeroCharge] when [pos] is not empty and the charges sum to exactly
    zero, and on equally long [pos] and [qs] returns otherwise a list of one
    cluster, whose charge is [np.sum(qs)], whose number of sensors is
    [len(qs)] and whose position and variance are those of
    [weighted_mean_and_var]. *)
Theorem barycenter_spec pos qs :
  (pos = [] → barycenter pos qs = Raise SipmEmptyList)
  ∧ (pos ≠ [] → np_sum qs == 0 → barycenter pos qs = Raise SipmZeroCharge)
  ∧ (pos ≠ [] → ¬ np_sum qs == 0 → length pos = length qs →
     ∃ cl, barycenter pos qs = Ok [cl]
           ∧ cluster_Q cl = np_sum qs
           ∧ nsipm cl = length qs
           ∧ (posxy cl, var cl) = weighted_mean_and_var pos qs).
Proof.
  unfold barycenter. split_and!.
  - by intros ->.
  - intros Hpos Hsum%Qeq_bool_iff. destruct pos; [done|]. simpl. by rewrite Hsum.
  - intros Hpos Hsum _. destruct pos as [|p pos]; [done|]. simpl length at 1.
    simpl Nat.eqb. destruct (Qeq_bool (np_sum qs) 0) eqn:E.
    { by apply Qeq_bool_iff in E. }
    destruct (weighted_mean_and_var (p :: pos) qs) as [mu v] eqn:Ew.
    eexists. split; [reflexivity|]. done.
Qed.

(** C4. A completed pass appends the barycenter of its region exactly when
    the region has at least [msipm - n_masked_neighbours] sensors, where
    [n_masked_neighbours] is the number of inactive sensors of the table
    within [new_lm_radius] of the refined peak when [consider_masked] holds
    and 0 when it does not; a region that fails the test leaves the list of
    clusters as it was.  With [msipm = 2], one sensor in the region and one
    inactive sensor of the table within [new_lm_radius], the region is
    accepted with masking on and rejected with masking off. *)
Theorem corona_acceptance_test :
  (∀ all_sipms Qlm lm_radius new_lm_radius msipm consider_masked
     pos qs c l pos' qs' c',
     corona_body all_sipms Qlm lm_radius new_lm_radius msipm consider_masked
       pos qs c = Ok (Next l pos' qs' c') →
     let region := within_new_lm_radius l in
     let n_masked := n_masked_neighbours l in
     region = get_nearby_sipm_inds (new_local_maximum l) new_lm_radius pos
     ∧ n_masked = (if truthy consider_masked
                   then inactive_within (new_local_maximum l) new_lm_radius
                          all_sipms
                   else 0%nat)
     ∧ ((msipm - Z.of_nat n_masked ≤ Z.of_nat (length region))%Z ↔
        ∃ p q cl, np_take pos region = Ok p ∧ np_take qs region = Ok q ∧
                  barycenter p q = Ok [cl] ∧ c' = c ++ [cl])
     ∧ (¬ (msipm - Z.of_nat n_masked ≤ Z.of_nat (length region))%Z → c' = c))
  ∧ (∃ l cl,
       corona_body masked_table 4 0 1 2 (Some true) [(0, 0)] [5] []
       = Ok (Next l [] [] [cl])
       ∧ within_new_lm_radius l = [0%nat] ∧ n_masked_neighbours l = 1%nat
       ∧ ∀ fuel, corona masked_table 0 4 0 1 2 (Some true) (S fuel) [(0, 0)] [5]
                 = Some (Ok [cl]))
  ∧ (∃ l,
       corona_body masked_table 4 0 1 2 (Some false) [(0, 0)] [5] []
       = Ok (Next l [] [] [])
       ∧ within_new_lm_radius l = [0%nat] ∧ n_masked_neighbours l = 0%nat
       ∧ ∀ fuel, corona masked_table 0 4 0 1 2 (Some false) (S fuel) [(0, 0)] [5]
                 = Some (Raise ClusterEmptyList)).
Proof.
  split_and!.
  - intros all_sipms Qlm lm_radius new_lm_radius msipm consider_masked
      pos qs c l pos' qs' c' Hbody.
    exact (corona_acceptance all_sipms Qlm lm_radius new_lm_radius msipm
             consider_masked pos qs c l pos' qs' c' Hbody).
  - do 2 eexists. split; [vm_compute; reflexivity|].
    split_and!; [done | done |]. intros [|fuel]; vm_compute; reflexivity.
  - eexists. split; [vm_compute; reflexivity|].
    split_and!; [done | done |]. intros [|fuel]; vm_compute; reflexivity.
Qed.

(** C6. Positions [(0,0)], [(1,0)], [(0,1)], [(10,10)] with charges 5, 5, 5,
    1 and [Qthr = 0], [Qlm = 4], [lm_radius = 0], [new_lm_radius = 1.5],
    [msipm = 2], masking off: the first pass takes the first three sensors
    as its region and leaves the fourth, the second evaluation of the loop
    breaks, and [corona] returns one cluster, of charge 15 and 3 sensors.
    It raises nothing. *)
Theorem corona_three_sensor_cluster all_sipms fuel :
  let pos := [(0, 0); (1, 0); (0, 1); (10, 10)] in
  let qs := [5; 5; 5; 1] in
  ∃ l cl,
    corona all_sipms 0 4 0 (3 # 2) 2 (Some false) (S fuel) pos qs
    = Some (Ok [cl])
    ∧ cluster_Q cl = 15 ∧ nsipm cl = 3%nat
    ∧ corona_threshold 0 pos qs = Ok (pos, qs)
    ∧ corona_body all_sipms 4 0 (3 # 2) 2 (Some false) pos qs []
      = Ok (Next l [(10, 10)] [1] [cl])
    ∧ within_new_lm_radius l = [0; 1; 2]%nat
    ∧ corona_body all_sipms 4 0 (3 # 2) 2 (Some false) [(10, 10)] [1] [cl]
      = Ok Exit.
Proof.
  intros pos qs. do 2 eexists.
  split; [destruct fuel; vm_compute; reflexivity|].
  split_and!; reflexivity.
Qed.

(** C8, as the code has it.  A name that is not bound in the namespace of
    the module makes [find_algorithm] raise [ValueError] with the message
    naming the algorithm, which is not the [AttributeError] of a failed
    attribute access. *)
Theorem find_algorithm_unbound_name name :
  module_dict !! name = None →
  find_algorithm name
  = Raise (ValueError ("The algorithm <" +:+ name +:+ "> does not exist"))
  ∧ find_algorithm name ≠ Raise AttributeError.
Proof. intros H. unfold find_algorithm. rewrite H. done. Qed.

(** C8 fails for a name that is bound in the module and is not a clustering
    strategy: [discard_sipms] is returned, no failure is raised. *)
Lemma find_algorithm_returns_helper :
  ("discard_sipms" ∉ strategies)
  ∧ find_algorithm "discard_sipms" = Ok (PyFunction "discard_sipms")
  ∧ ¬ (∀ name, name ∉ strategies →
         ∃ msg, find_algorithm name = Raise (ValueError msg)).
Proof.
  assert ("discard_sipms" ∉ strategies) as Hnot.
  { unfold strategies. rewrite !elem_of_cons, elem_of_nil.
    intros [|[|[]]]; discriminate. }
  split_and!; [done | by vm_compute |].
  intros Hall. destruct (Hall "discard_sipms" Hnot) as [msg Hmsg].
  vm_compute in Hmsg. discriminate.
Qed.

(** C10. [find_algorithm] returns the object bound to every name of the
    namespace of the module: the two strategies, and as well the helper
    functions and the imported modules and classes.  It raises for exactly
    the names that the namespace does not bind. *)
Theorem find_algorithm_module_namespace :
  Forall (fun binding => find_algorithm binding.1 = Ok binding.2) module_bindings
  ∧ find_algorithm "barycenter" = Ok (PyFunction "barycenter")
  ∧ find_algorithm "corona" = Ok (PyFunction "corona")
  ∧ find_algorithm "discard_sipms" = Ok (PyFunction "discard_sipms")
  ∧ find_algorithm "get_nearby_sipm_inds" = Ok (PyFunction "get_nearby_sipm_inds")
  ∧ find_algorithm "np" = Ok (PyModule "numpy")
  ∧ find_algorithm "sys" = Ok (PyModule "sys")
  ∧ ∀ name, (∃ e, find_algorithm name = Raise e) ↔ name ∉ module_bindings.*1.
Proof.
  split.
  { unfold module_bindings. repeat (constructor; [by vm_compute|]). constructor. }
  split_and!; try by vm_compute.
  intros name.
  pose proof (not_elem_of_list_to_map (M := gmap string) module_bindings name)
    as Hnone.
  fold module_dict in Hnone. unfold find_algorithm. split.
  - intros [e He]. apply Hnone. by destruct (module_dict !! name).
  - intros Hn%Hnone. rewrite Hn. eauto.
Qed.

(** ** The theorems at concrete inputs *)

Lemma corona_failure_order_witness :
  corona [] 1 4 0 1 1 None 0 [] [] = Some (Raise SipmEmptyList)
  ∧ corona [] 1 4 0 1 1 None 0 [(0, 0); (1, 0)] [1; -1]
    = Some (Raise SipmZeroCharge)
  ∧ corona [] 6 4 0 1 1 None 0 [(0, 0)] [5]
    = Some (Raise SipmEmptyListAboveQthr)
  ∧ corona [] 0 4 0 1 1 None 0 [(0, 0); (1, 0)] [-1; 0]
    = Some (Raise SipmZeroChargeAboveQthr)
  ∧ corona_threshold 2 [(0, 0); (1, 0); (2, 0)] [1; 2; 3]
    = Ok ([(1, 0); (2, 0)], [2; 3]).
Proof.
  assert (0 <= 0) as H0 by apply Qle_refl.
  assert (0 <= 1) as H1 by (by vm_compute).
  split_and!.
  - destruct (corona_failure_order [] 1 4 0 1 1 None 0 [] [] H0 H1)
      as (H & _).
    by apply H.
  - destruct (corona_failure_order [] 1 4 0 1 1 None 0 [(0, 0); (1, 0)] [1; -1]
                H0 H1) as (_ & H & _).
    apply H; [done | by vm_compute].
  - destruct (corona_failure_order [] 6 4 0 1 1 None 0 [(0, 0)] [5] H0 H1)
      as (_ & _ & _ & H & _).
    apply H; [done | done | by vm_compute | done].
  - destruct (corona_failure_order [] 0 4 0 1 1 None 0 [(0, 0); (1, 0)] [-1; 0]
                H0 H1) as (_ & _ & _ & _ & H & _).
    apply H; [done | done | by vm_compute | done | by vm_compute].
  - destruct (corona_failure_order [] 2 4 0 1 1 None 0
                [(0, 0); (1, 0); (2, 0)] [1; 2; 3] H0 H1)
      as (_ & _ & _ & _ & _ & H & _).
    apply H; [done | done | by vm_compute | done | by vm_compute].
Defined.

Lemma corona_Qlm_above_max_witness :
  corona [] 0 10 0 1 1 None 3 [(0, 0); (1, 0)] [1; 2]
  = Some (Raise ClusterEmptyList).
Proof.
  assert (0 <= 0) as H0 by apply Qle_refl.
  assert (0 <= 1) as H1 by (by vm_compute).
  refine (proj2 (proj2 (corona_Qlm_above_max [] 0 10 0 1 1 None 3
            [(0, 0); (1, 0)] [1; 2] [(0, 0); (1, 0)] [1; 2] H0 H1 eq_refl _))).
  intros q Hq. rewrite !elem_of_cons, elem_of_nil in Hq.
  destruct Hq as [->|[->|[]]]; reflexivity.
Defined.

Lemma corona_sensor_in_one_cluster_witness :
  ∃ c regions,
    corona [] 0 4 0 (3 # 2) 2 (Some false) 2
      [(0, 0); (1, 0); (10, 10); (11, 10)] [5; 5; 6; 6]
    = Some (Ok c)
    ∧ corona_loop_ids [] 4 0 (3 # 2) 2 (Some false) 2
        [(0, 0); (1, 0); (10, 10); (11, 10)] [5; 5; 6; 6] [0; 1; 2; 3]%nat [] []
      = Some (Ok (c, regions))
    ∧ regions = [[2; 3]; [0; 1]]%nat
    ∧ Forall2 (emitted [(0, 0); (1, 0); (10, 10); (11, 10)] [5; 5; 6; 6])
        regions c
    ∧ NoDup (concat regions).
Proof.
  destruct (corona_sensor_in_one_cluster [] 0 4 0 (3 # 2) 2 (Some false)
              [(0, 0); (1, 0); (10, 10); (11, 10)] [5; 5; 6; 6] eq_refl)
    as (_ & H & _).
  eexists.
  match goal with
  | |- ∃ regions, ?A ∧ _ =>
      assert A as Hcall by (vm_compute; reflexivity)
  end.
  destruct (H 2%nat _ ltac:(vm_compute; reflexivity))
    as (regions & Hids & Hem & Hnd).
  exists regions. split_and!; try done.
  vm_compute in Hids. by injection Hids as <-.
Defined.

Lemma hottest_within_lm_radius_witness :
  (1%nat ∈ get_nearby_sipm_inds (1, 0) 0 [(0, 0); (1, 0)])
  ∧ ∃ pos_lm qs_lm,
      np_take [(0, 0); (1, 0)] (get_nearby_sipm_inds (1, 0) 0 [(0, 0); (1, 0)])
      = Ok pos_lm
      ∧ np_take [1; 2] (get_nearby_sipm_inds (1, 0) 0 [(0, 0); (1, 0)])
        = Ok qs_lm
      ∧ pos_lm ≠ [] ∧ barycenter pos_lm qs_lm ≠ Raise SipmEmptyList.
Proof.
  exact (proj2 (hottest_within_lm_radius 0 [(0, 0); (1, 0)] [1; 2] 1 (1, 0)
                  (Qle_refl 0) eq_refl eq_refl eq_refl)).
Defined.

Lemma barycenter_spec_witness :
  barycenter [] [] = Raise SipmEmptyList
  ∧ barycenter [(0, 0); (2, 0)] [1; -1] = Raise SipmZeroCharge
  ∧ ∃ cl, barycenter [(0, 0); (2, 0)] [1; 3] = Ok [cl]
          ∧ cluster_Q cl = np_sum [1; 3] ∧ nsipm cl = 2%nat
          ∧ (posxy cl, var cl) = weighted_mean_and_var [(0, 0); (2, 0)] [1; 3].
Proof.
  split_and!.
  - by apply (proj1 (barycenter_spec [] [])).
  - apply (proj1 (proj2 (barycenter_spec [(0, 0); (2, 0)] [1; -1])));
      [done | by vm_compute].
  - apply (proj2 (proj2 (barycenter_spec [(0, 0); (2, 0)] [1; 3])));
      [done | by vm_compute | done].
Defined.

Lemma corona_acceptance_test_witness :
  ∃ l cl,
    corona_body masked_table 4 0 1 2 (Some true) [(0, 0)] [5] []
    = Ok (Next l [] [] [cl])
    ∧ (2 - Z.of_nat (n_masked_neighbours l)
       ≤ Z.of_nat (length (within_new_lm_radius l)))%Z.
Proof.
  do 2 eexists.
  match goal with
  | |- ?A ∧ _ => assert A as Hbody by (vm_compute; reflexivity)
  end.
  split; [exact Hbody|].
  destruct corona_acceptance_test as (Hgen & _).
  destruct (Hgen _ _ _ _ _ _ _ _ _ _ _ _ _ Hbody) as (_ & _ & Hiff & _).
  apply Hiff. do 3 eexists. split_and!; vm_compute; reflexivity.
Defined.

Lemma find_algorithm_unbound_name_witness :
  find_algorithm "kmeans"
  = Raise (ValueError "The algorithm <kmeans> does not exist")
  ∧ find_algorithm "kmeans" ≠ Raise AttributeError.
Proof. apply (find_algorithm_unbound_name "kmeans"). by vm_compute. Defined.

(** * Further properties of the module *)

(** ** get_nearby_sipm_inds *)

Lemma where_from_sorted i mask : StronglySorted lt (where_from i mask).
Proof.
  revert i. induction mask as [|b mask IH]; intros i; simpl; [constructor|].
  destruct b; [|apply IH]. constructor; [apply IH|].
  apply Forall_forall. intros j Hj%where_from_bounds. lia.
Qed.

Lemma norm_le_true p cs d :
  norm_le p cs d = true ↔ 0 <= d ∧ sqdist p cs <= d * d.
Proof. unfold norm_le. by rewrite andb_true_iff, !Qle_bool_true. Qed.

(** X1. [get_nearby_sipm_inds] returns exactly the indices of the positions
    at distance at most [d] of [cs] (none when [d] is negative), every one
    within the bounds of [pos], in increasing order and without repetition. *)
Theorem get_nearby_sipm_inds_spec cs d pos :
  (∀ i, i ∈ get_nearby_sipm_inds cs d pos ↔
        ∃ p, pos !! i = Some p ∧ 0 <= d ∧ sqdist p cs <= d * d)
  ∧ Forall (fun i => (i < length pos)%nat) (get_nearby_sipm_inds cs d pos)
  ∧ StronglySorted lt (get_nearby_sipm_inds cs d pos)
  ∧ NoDup (get_nearby_sipm_inds cs d pos).
Proof.
  assert (∀ i, i ∈ get_nearby_sipm_inds cs d pos ↔
               ∃ p, pos !! i = Some p ∧ 0 <= d ∧ sqdist p cs <= d * d) as Hin.
  { intros i. unfold get_nearby_sipm_inds, np_where. rewrite where_from_elem.
    split.
    - intros (k & -> & Hk). rewrite list_lookup_fmap in Hk. simpl.
      destruct (pos !! k) as [p|]; simplify_eq/=.
      exists p. split; [done|]. by apply norm_le_true.
    - intros (p & Hp & Hd). exists i. split; [done|].
      rewrite list_lookup_fmap, Hp. simpl. f_equal. by apply norm_le_true. }
  split_and!; [done | | apply where_from_sorted |].
  - apply Forall_forall. intros i (p & Hp & _)%Hin. by eapply lookup_lt_Some.
  - pose proof (where_from_sorted 0 ((fun p => norm_le p cs d) <$> pos)) as Hs.
    unfold get_nearby_sipm_inds, np_where.
    induction Hs as [|j l Hs IH Hall]; constructor; [|done].
    intros Hj. rewrite Forall_forall in Hall. specialize (Hall j Hj). lia.
Qed.

(** X2. With a radius equal to zero, [get_nearby_sipm_inds] returns exactly
    the indices of the positions that are equal to [cs]. *)
Theorem get_nearby_sipm_inds_radius_0 cs d pos i :
  d == 0 →
  i ∈ get_nearby_sipm_inds cs d pos ↔
  ∃ p : point, pos !! i = Some p ∧ p.1 == cs.1 ∧ p.2 == cs.2.
Proof.
  intros Hd. unfold get_nearby_sipm_inds, np_where. rewrite where_from_elem.
  split.
  - intros (k & -> & Hk). rewrite list_lookup_fmap in Hk. simpl.
    destruct (pos !! k) as [p|]; simplify_eq/=.
    exists p. split; [done|]. by apply (norm_le_0 p cs d).
  - intros (p & Hp & H1 & H2). exists i. split; [done|].
    rewrite list_lookup_fmap, Hp. simpl. f_equal.
    apply norm_le_same; [|done|done]. rewrite Hd. apply Qle_refl.
Qed.

Lemma norm_le_mono p cs d d' :
  d <= d' → norm_le p cs d = true → norm_le p cs d' = true.
Proof.
  intros Hle [H0 Hd]%norm_le_true. apply norm_le_true.
  split; [lra|]. assert (d * d <= d' * d') by nra. lra.
Qed.

Lemma where_from_mono i mask mask' :
  Forall2 (fun b b' => b = true → b' = true) mask mask' →
  where_from i mask `sublist_of` where_from i mask'.
Proof.
  intros H. revert i. induction H as [|b b' mask mask' Hb H IH]; intros i; simpl;
    [constructor|].
  destruct b.
  - rewrite Hb by done. apply sublist_skip, IH.
  - destruct b'; [apply sublist_cons|]; apply IH.
Qed.

(** X3. A larger radius finds the sensors of a smaller one and maybe more:
    the indices for [d] are a subsequence of the indices for [d' >= d].  A
    negative radius finds nothing. *)
Theorem get_nearby_sipm_inds_mono cs d d' pos :
  d <= d' →
  get_nearby_sipm_inds cs d pos `sublist_of` get_nearby_sipm_inds cs d' pos
  ∧ (d' < 0 → get_nearby_sipm_inds cs d' pos = []).
Proof.
  intros Hle. split.
  - apply where_from_mono. apply Forall2_fmap, Forall2_same_length_lookup.
    split; [done|]. intros i p p' Hp Hp'. simplify_eq.
    by apply norm_le_mono.
  - intros Hneg. unfold get_nearby_sipm_inds, np_where.
    generalize 0%nat. induction pos as [|p pos IH]; intros n; csimpl; [done|].
    unfold norm_le at 1. replace (Qle_bool 0 d') with false; [apply IH|].
    symmetry. by apply Qle_bool_false.
Qed.

(** ** discard_sipms *)

Lemma delete_from_mask {A} i (sis : list nat) (arr : list A) :
  delete_from i sis arr
  = compress (negb <$> ((fun j => bool_decide (j ∈ sis)) <$> seq i (length arr)))
             arr.
Proof.
  revert i. induction arr as [|x arr IH]; intros i; csimpl; [done|].
  rewrite IH. by destruct (bool_decide (i ∈ sis)).
Qed.

Lemma where_from_mask_elem i n (sis : list nat) j :
  j ∈ where_from i ((fun j => bool_decide (j ∈ sis)) <$> seq i n)
  ↔ j ∈ sis ∧ (i ≤ j < i + n)%nat.
Proof.
  rewrite where_from_elem. split.
  - intros (k & -> & Hk). rewrite list_lookup_fmap in Hk.
    destruct (seq i n !! k) as [m|] eqn:Hm; simplify_eq/=.
    apply lookup_seq in Hm as [-> Hlt].
    split; [by eapply bool_decide_eq_true_1 | lia].
  - intros [Hj Hr]. exists (j - i)%nat. split; [lia|].
    rewrite list_lookup_fmap, lookup_seq_lt by lia. simpl. f_equal.
    apply bool_decide_eq_true_2. by replace (i + (j - i))%nat with j by lia.
Qed.

Lemma np_take_perm {A} (arr : list A) sis sis' l :
  sis ≡ₚ sis' → np_take arr sis = Ok l →
  ∃ l', np_take arr sis' = Ok l' ∧ l ≡ₚ l'.
Proof.
  intros Hp. revert l.
  induction Hp as [|i sis sis' Hp IH|i j sis|sis1 sis2 sis3 H12 IH12 H23 IH23];
    intros l; simpl.
  - intros [= <-]. by exists [].
  - intros H. bind_inv H x Hx. bind_inv H xs Hxs. injection H as <-.
    destruct (IH _ Hxs) as (l' & -> & Hl'). rewrite Hx. simpl.
    exists (x :: l'). split; [done|]. by constructor.
  - intros H. bind_inv H x Hx. bind_inv H xs Hxs. bind_inv Hxs y Hy.
    bind_inv Hxs ys Hys. injection Hxs as <-. injection H as <-.
    rewrite Hx, Hy, Hys. simpl. exists (y :: x :: ys). split; [done|].
    apply perm_swap.
  - intros H. destruct (IH12 _ H) as (l2 & H2 & Hl2).
    destruct (IH23 _ H2) as (l3 & H3 & Hl3).
    exists l3. split; [done|]. by etrans.
Qed.

Lemma np_take_in_range {A} (arr : list A) sis :
  Forall (fun i => (i < length arr)%nat) sis → ∃ l, np_take arr sis = Ok l.
Proof.
  induction 1 as [|i sis Hi _ [l Hl]]; simpl; [by exists []|].
  destruct (lookup_lt_is_Some_2 _ _ Hi) as [x Hx].
  unfold getitem. rewrite Hx, Hl. simpl. eauto.
Qed.

Lemma np_take_Ok_range {A} (arr : list A) sis sel :
  np_take arr sis = Ok sel → Forall (fun i => (i < length arr)%nat) sis.
Proof.
  revert sel. induction sis as [|i sis IH]; intros sel H; [constructor|].
  simpl in H. bind_inv H x Hx. bind_inv H xs Hxs.
  constructor; [|by eapply IH]. unfold getitem in Hx.
  destruct (arr !! i) eqn:E; [|done]. by eapply lookup_lt_Some.
Qed.

Lemma np_take_zip {A B} (a : list A) (b : list B) sis la lb :
  np_take a sis = Ok la → np_take b sis = Ok lb →
  np_take (zip a b) sis = Ok (zip la lb).
Proof.
  revert la lb. induction sis as [|i sis IH]; intros la lb; simpl.
  - by intros [= <-] [= <-].
  - intros Ha Hb. bind_inv Ha x Hx. bind_inv Ha xs Hxs. injection Ha as <-.
    bind_inv Hb y Hy. bind_inv Hb ys Hys. injection Hb as <-.
    rewrite (IH _ _ Hxs Hys). unfold getitem in *.
    rewrite lookup_zip_with.
    destruct (a !! i); simplify_eq/=. destruct (b !! i); simplify_eq/=. done.
Qed.

Lemma compress_zip {A B} mask (a : list A) (b : list B) :
  compress mask (zip a b) = zip (compress mask a) (compress mask b).
Proof.
  revert a b. induction mask as [|m mask IH]; intros [|x a] [|y b]; simpl;
    try done.
  - destruct m; [done | by destruct (compress mask a)].
  - destruct m; simpl; by rewrite IH.
Qed.

Lemma np_take_delete_perm {A} (arr : list A) sis sel :
  NoDup sis → np_take arr sis = Ok sel →
  sel ++ delete_from 0 sis arr ≡ₚ arr.
Proof.
  intros Hnd Htake.
  set (mask := (fun j => bool_decide (j ∈ sis)) <$> seq 0 (length arr)).
  assert (length mask = length arr) as Hm
      by (unfold mask; by rewrite length_fmap, length_seq).
  pose proof (np_take_Ok_range _ _ _ Htake) as Hrange.
  assert (sis ≡ₚ where_from 0 mask) as Hp.
  { apply NoDup_Permutation; [done | |].
    - pose proof (where_from_sorted 0 mask) as Hs.
      induction Hs as [|j l Hs IH Hall]; constructor; [|done].
      intros Hj. rewrite Forall_forall in Hall. specialize (Hall j Hj). lia.
    - intros j. unfold mask. rewrite where_from_mask_elem.
      rewrite Forall_forall in Hrange. split; [|tauto].
      intros Hj. specialize (Hrange j Hj). split; [done|lia]. }
  destruct (np_take_perm _ _ _ _ Hp Htake) as (l' & Hl' & Hperm).
  change (where_from 0 mask) with (np_where mask) in Hl'.
  rewrite np_take_where in Hl' by done. injection Hl' as <-.
  rewrite delete_from_mask. fold mask. rewrite Hperm.
  by apply compress_split_perm.
Qed.

(** X4. [discard_sipms] with distinct indices within the bounds of two
    equally long arrays splits the sensors in two: the sensors that the
    index array selects and the sensors that are left make up, position
    with charge, exactly the sensors there were.  What is left keeps the
    order of the arrays, has equally long arrays again, and is shorter by
    the number of indices. *)
Theorem discard_sipms_partition sis pos qs :
  NoDup sis →
  Forall (fun i => (i < length pos)%nat) sis →
  length pos = length qs →
  ∃ pos' qs' pos_sel qs_sel,
    discard_sipms sis pos qs = Ok (pos', qs')
    ∧ np_take pos sis = Ok pos_sel ∧ np_take qs sis = Ok qs_sel
    ∧ zip pos_sel qs_sel ++ zip pos' qs' ≡ₚ zip pos qs
    ∧ pos' `sublist_of` pos ∧ qs' `sublist_of` qs
    ∧ length pos' = length qs'
    ∧ (length pos' + length sis = length pos)%nat.
Proof.
  intros Hnd Hpos Hlen.
  assert (Forall (fun i => (i < length qs)%nat) sis) as Hqs by (by rewrite <- Hlen).
  destruct (np_take_in_range pos sis Hpos) as [pos_sel Hps].
  destruct (np_take_in_range qs sis Hqs) as [qs_sel Hqsel].
  exists (delete_from 0 sis pos), (delete_from 0 sis qs), pos_sel, qs_sel.
  assert (forallb (fun i => i <? length pos)%nat sis = true) as Hb.
  { apply forallb_forall. intros i Hi%list_elem_of_In.
    rewrite Forall_forall in Hpos. apply Nat.ltb_lt. auto. }
  split_and!; try done.
  - unfold discard_sipms, np_delete. rewrite <- Hlen, Hb. done.
  - pose proof (np_take_delete_perm (zip pos qs) sis (zip pos_sel qs_sel) Hnd
                  (np_take_zip _ _ _ _ _ Hps Hqsel)) as Hperm.
    rewrite delete_from_mask in Hperm. rewrite !delete_from_mask.
    rewrite compress_zip in Hperm. rewrite length_zip_with in Hperm.
    rewrite <- Hlen in *. by rewrite Nat.min_id in Hperm.
  - rewrite delete_from_mask. apply compress_sublist.
  - rewrite delete_from_mask. apply compress_sublist.
  - rewrite !delete_from_mask, <- Hlen. by apply compress_same_length.
  - pose proof (np_take_delete_perm pos sis pos_sel Hnd Hps) as Hperm.
    apply Permutation_length in Hperm. rewrite length_app in Hperm.
    rewrite (np_take_length _ _ _ Hps) in Hperm. lia.
Qed.

(** X5. [discard_sipms] raises [IndexError] as soon as one index is beyond
    the end of [pos] or of [qs]. *)
Theorem discard_sipms_out_of_bounds sis pos qs i :
  i ∈ sis → (length pos ≤ i ∨ length qs ≤ i)%nat →
  discard_sipms sis pos qs = Raise IndexError.
Proof.
  intros Hi Hout.
  assert (∀ (A : Type) (arr : list A),
            (length arr ≤ i)%nat → np_delete arr sis = Raise IndexError) as Hraise.
  { intros A arr Hle. unfold np_delete.
    destruct (forallb (fun i => i <? length arr)%nat sis) eqn:E; [|done].
    rewrite forallb_forall in E. apply list_elem_of_In, E, Nat.ltb_lt in Hi. lia. }
  unfold discard_sipms. destruct (decide (length pos ≤ i)%nat) as [Hp|Hp].
  - rewrite (Hraise _ pos Hp). reflexivity.
  - destruct (np_delete pos sis) as [p'|e] eqn:E.
    + simpl. rewrite (Hraise _ qs) by lia. reflexivity.
    + unfold np_delete in E.
      destruct (forallb (fun i => i <? length pos)%nat sis); simplify_eq.
      reflexivity.
Qed.

Lemma compress_negb_fmap_Forall {A} (f : A → bool) (arr : list A) :
  Forall (fun x => f x = false) (compress (negb <$> (f <$> arr)) arr).
Proof.
  induction arr as [|x arr IH]; csimpl; [constructor|].
  destruct (f x) eqn:E; simpl; [done | by constructor].
Qed.

Lemma where_from_all_false {A} (f : A → bool) (arr : list A) i :
  Forall (fun x => f x = false) arr → where_from i (f <$> arr) = [].
Proof.
  intros H. revert i. induction H as [|x arr Hx _ IH]; intros i; csimpl; [done|].
  by rewrite Hx.
Qed.

(** X6. Once [discard_sipms] has removed the sensors that
    [get_nearby_sipm_inds] finds within [d] of [cs], no sensor of what is
    left is within [d], or within a smaller radius, of [cs]. *)
Theorem discard_sipms_removes_nearby cs d d' pos qs pos' qs' :
  d' <= d →
  discard_sipms (get_nearby_sipm_inds cs d pos) pos qs = Ok (pos', qs') →
  get_nearby_sipm_inds cs d' pos' = [].
Proof.
  intros Hle H. unfold discard_sipms in H. bind_inv H p Hp. bind_inv H q Hq.
  injection H as <- <-. unfold get_nearby_sipm_inds in Hp.
  rewrite np_delete_where in Hp by (by rewrite length_fmap).
  injection Hp as <-. unfold get_nearby_sipm_inds, np_where.
  apply where_from_all_false.
  eapply Forall_impl; [apply (compress_negb_fmap_Forall (fun p => norm_le p cs d))|].
  intros p Hp. simpl in Hp. destruct (norm_le p cs d') eqn:E; [|done].
  apply (norm_le_mono _ _ _ _ Hle) in E. congruence.
Qed.

(** ** count_masked *)

Lemma count_masked_mask cs d (table : DataFrame) (is_masked : list bool) :
  length is_masked = length table →
  count_masked cs d table (Some is_masked)
  = Ok (np_count_nonzero
          (negb <$> compress ((fun r => norm_le (X r, Y r) cs d) <$> table)
                             is_masked)).
Proof.
  intros Hlen. unfold count_masked, get_nearby_sipm_inds. rewrite zip_columns.
  rewrite <- list_fmap_compose.
  rewrite np_take_where by (by rewrite length_fmap). done.
Qed.

Lemma count_nonzero_negb_le mask :
  (np_count_nonzero (negb <$> mask) ≤ length mask)%nat
  ∧ (np_count_nonzero (negb <$> mask)
     ≤ length (filter (fun b => b = false) mask))%nat
  ∧ (Forall (fun b => b = true) mask → np_count_nonzero (negb <$> mask) = 0%nat).
Proof.
  unfold np_count_nonzero.
  induction mask as [|b mask (IH1 & IH2 & IH3)]; [done|].
  csimpl. rewrite !filter_cons. destruct b; simpl.
  - split_and!; [lia | done |]. intros H. apply IH3. by inversion H.
  - split_and!; [lia | lia |]. intros H. by inversion H.
Qed.

Lemma compress_filter_le {A} (P : A → Prop) `{!∀ x, Decision (P x)}
    mask (arr : list A) :
  (length (filter P (compress mask arr)) ≤ length (filter P arr))%nat.
Proof.
  revert arr. induction mask as [|b mask IH]; intros [|x arr]; simpl;
    try (rewrite ?filter_nil; simpl; lia).
  specialize (IH arr). rewrite (filter_cons _ x arr).
  destruct b; [rewrite filter_cons|]; destruct (decide (P x)); simpl; lia.
Qed.

Lemma compress_mono_count mask mask' (arr : list bool) :
  Forall2 (fun b b' => b = true → b' = true) mask mask' →
  (np_count_nonzero (negb <$> compress mask arr)
   ≤ np_count_nonzero (negb <$> compress mask' arr))%nat.
Proof.
  intros H. revert arr. unfold np_count_nonzero.
  induction H as [|b b' mask mask' Hb H IH]; intros [|x arr]; simpl; try lia.
  specialize (IH arr). destruct b.
  - rewrite Hb by done. csimpl. rewrite !filter_cons.
    destruct (decide (negb x = true)); simpl; lia.
  - destruct b'; [|done]. csimpl. rewrite filter_cons.
    destruct (decide (negb x = true)); simpl; lia.
Qed.

(** X7. Given a mask as long as the sensor table, [count_masked] returns a
    count: it raises nothing, the count is at most the number of entries of
    the mask that are false and at most the number of sensors of the table
    within [d] of [cs], and it is 0 when every entry of the mask is true. *)
Theorem count_masked_bounds cs d (table : DataFrame) (is_masked : list bool) :
  length is_masked = length table →
  ∃ n, count_masked cs d table (Some is_masked) = Ok n
       ∧ (n ≤ length (filter (fun b => b = false) is_masked))%nat
       ∧ (n ≤ length (get_nearby_sipm_inds cs d (zip (X <$> table) (Y <$> table))))%nat
       ∧ (Forall (fun b => b = true) is_masked → n = 0%nat).
Proof.
  intros Hlen. eexists. split; [by apply count_masked_mask|].
  set (near := (fun r => norm_le (X r, Y r) cs d) <$> table).
  assert (length near = length is_masked) as Hn
      by (unfold near; by rewrite length_fmap).
  destruct (count_nonzero_negb_le (compress near is_masked)) as (H1 & H2 & H3).
  split_and!.
  - etrans; [exact H2|]. apply compress_filter_le.
  - etrans; [exact H1|].
    assert (np_take is_masked
              (get_nearby_sipm_inds cs d (zip (X <$> table) (Y <$> table)))
            = Ok (compress near is_masked)) as Htake.
    { unfold get_nearby_sipm_inds. rewrite zip_columns, <- list_fmap_compose.
      by apply np_take_where. }
    by rewrite (np_take_length _ _ _ Htake).
  - intros Hall. apply H3.
    rewrite Forall_forall in Hall. apply Forall_forall. intros b Hb.
    apply Hall. eapply elem_of_sublist; [exact Hb | apply compress_sublist].
Qed.

(** X8. The count of [count_masked] does not go down when the radius goes
    up. *)
Theorem count_masked_mono cs d d' (table : DataFrame) (is_masked : list bool) n n' :
  d <= d' →
  length is_masked = length table →
  count_masked cs d table (Some is_masked) = Ok n →
  count_masked cs d' table (Some is_masked) = Ok n' →
  (n ≤ n')%nat.
Proof.
  intros Hle Hlen. rewrite !count_masked_mask by done.
  intros [= <-] [= <-]. apply compress_mono_count.
  apply Forall2_fmap, Forall2_same_length_lookup. split; [done|].
  intros i r r' Hr Hr'. simplify_eq. by apply norm_le_mono.
Qed.

(** ** barycenter *)

Lemma np_sum_perm l l' : l ≡ₚ l' → np_sum l == np_sum l'.
Proof.
  induction 1 as [|x l l' _ IH|x y l|l1 l2 l3 _ IH12 _ IH23]; simpl.
  - reflexivity.
  - by rewrite IH.
  - ring.
  - by rewrite IH12.
Qed.





(** X10. When all the sensors are at one position and their charges do not
    sum to zero, the cluster of [barycenter] is at that position and has
    variance zero. *)
Theorem barycenter_one_position cs pos qs cl :
  Forall (fun p : point => p.1 == cs.1 ∧ p.2 == cs.2) pos →
  length pos = length qs →
  barycenter pos qs = Ok [cl] →
  (posxy cl).1 == cs.1 ∧ (posxy cl).2 == cs.2
  ∧ (var cl).1 == 0 ∧ (var cl).2 == 0.
Proof.
  intros Hall Hlen Hb.
  pose proof (barycenter_Ok _ _ _ Hb) as (_ & Hsum & Hcl).
  injection Hcl as ->. unfold weighted_mean_and_var. simpl.
  assert (np_average (fst <$> pos) qs == cs.1) as Hmx.
  { apply np_average_const; [|by rewrite length_fmap|done].
    apply Forall_fmap. eapply Forall_impl; [exact Hall|]. by intros ? [? _]. }
  assert (np_average (snd <$> pos) qs == cs.2) as Hmy.
  { apply np_average_const; [|by rewrite length_fmap|done].
    apply Forall_fmap. eapply Forall_impl; [exact Hall|]. by intros ? [_ ?]. }
  split_and!; [done | done | |].
  - apply np_average_const; [|by rewrite !length_fmap|done].
    apply Forall_fmap, Forall_fmap. eapply Forall_impl; [exact Hall|].
    intros p [Hp _]. simpl. rewrite Hmx, Hp. ring.
  - apply np_average_const; [|by rewrite !length_fmap|done].
    apply Forall_fmap, Forall_fmap. eapply Forall_impl; [exact Hall|].
    intros p [_ Hp]. simpl. rewrite Hmy, Hp. ring.
Qed.

(** ** corona *)

Lemma bind_Raise {A B} (m : result A) (k : A → result B) e :
  m ≫= k = Raise e ↔ m = Raise e ∨ ∃ a, m = Ok a ∧ k a = Raise e.
Proof.
  destruct m as [a|e']; simpl; split.
  - intros H. right. by exists a.
  - by intros [[=] | (a' & [= <-] & H)].
  - intros [= <-]. by left.
  - by intros [[= <-] | (a' & [=] & _)].
Qed.

Lemma barycenter_Raise pos qs e :
  barycenter pos qs = Raise e →
  (e = SipmEmptyList ∧ pos = []) ∨ (e = SipmZeroCharge ∧ pos ≠ []).
Proof.
  unfold barycenter. destruct pos as [|p pos]; simpl.
  - intros [= <-]. by left.
  - destruct (Qeq_bool (np_sum qs) 0).
    + intros [= <-]. by right.
    + by destruct (weighted_mean_and_var (p :: pos) qs).
Qed.

Lemma np_sum_app l k : np_sum (l ++ k) == np_sum l + np_sum k.
Proof. induction l as [|x l IH]; simpl; [ring|]. rewrite IH. ring. Qed.

Lemma np_sum_nonneg l : Forall (fun q => 0 <= q) l → 0 <= np_sum l.
Proof.
  induction 1 as [|q l Hq _ IH]; simpl; [apply Qle_refl|].
  change 0 with (0 + 0). by apply Qplus_le_compat.
Qed.

Lemma np_sum_compress_split mask qs :
  length mask = length qs →
  np_sum (compress mask qs) + np_sum (compress (negb <$> mask) qs) == np_sum qs.
Proof.
  intros Hlen. rewrite <- np_sum_app. apply np_sum_perm.
  by apply compress_split_perm.
Qed.

Lemma compress_Forall {A} (P : A → Prop) mask (arr : list A) :
  Forall P arr → Forall P (compress mask arr).
Proof.
  intros H. rewrite Forall_forall in H. apply Forall_forall. intros x Hx.
  apply H. eapply elem_of_sublist; [exact Hx | apply compress_sublist].
Qed.

Lemma compress_all_true {A} (f : A → bool) (arr : list A) :
  Forall (fun x => f x = true) arr → compress (f <$> arr) arr = arr.
Proof.
  induction 1 as [|x arr Hx _ IH]; csimpl; [done|]. by rewrite Hx, IH.
Qed.

Lemma compress_length_split {A} mask (arr : list A) :
  length mask = length arr →
  (length (compress mask arr) + length (compress (negb <$> mask) arr)
   = length arr)%nat.
Proof.
  intros Hlen. rewrite <- length_app.
  apply Permutation_length. by apply compress_split_perm.
Qed.

Lemma total_charge_snoc c cl :
  total_charge (c ++ [cl]) == total_charge c + cluster_Q cl.
Proof.
  unfold total_charge. rewrite fmap_app, np_sum_app. simpl. ring.
Qed.

Lemma total_nsipm_snoc c cl :
  total_nsipm (c ++ [cl]) = (total_nsipm c + nsipm cl)%nat.
Proof.
  unfold total_nsipm. rewrite sum_list_with_app. simpl. lia.
Qed.

Lemma total_nsipm_length c :
  Forall (fun cl => (1 ≤ nsipm cl)%nat) c → (length c ≤ total_nsipm c)%nat.
Proof.
  unfold total_nsipm. induction 1 as [|cl c Hcl _ IH]; simpl; lia.
Qed.

Lemma inactive_within_all_active cs d (table : DataFrame) :
  Forall (fun r => Active r ≠ 0%Z) table → inactive_within cs d table = 0%nat.
Proof.
  unfold inactive_within. induction 1 as [|r table Hr _ IH]; [done|].
  rewrite (filter_cons _ r table), decide_False by (by intros [? _]). done.
Qed.

Ltac bind_raise H x Hx :=
  apply bind_Raise in H as [H | (x & Hx & H)].

Lemma getitem_Raise {A} (arr : list A) i e :
  getitem arr i = Raise e → e = IndexError ∧ (length arr ≤ i)%nat.
Proof.
  unfold getitem. destruct (arr !! i) eqn:E; [done|]. intros [= <-].
  split; [done|]. by apply lookup_ge_None.
Qed.

Lemma np_take_Raise {A} (arr : list A) inds e :
  np_take arr inds = Raise e → e = IndexError.
Proof.
  induction inds as [|i inds IH]; simpl; [done|]. intros H.
  bind_raise H x Hx; [by apply getitem_Raise in H as [? _]|].
  bind_raise H xs Hxs; [by apply IH | done].
Qed.

Lemma np_delete_Raise {A} (arr : list A) inds e :
  np_delete arr inds = Raise e → e = IndexError.
Proof. unfold np_delete. destruct (forallb _ inds); [done | by intros [= <-]]. Qed.

Lemma np_argmax_Raise qs e : np_argmax qs = Raise e → qs = [].
Proof. by destruct qs. Qed.

Section CoronaMore.

Variable all_sipms : DataFrame.
Variables Qthr Qlm lm_radius new_lm_radius : Q.
Variable msipm : Z.
Variable consider_masked : option bool.

Abbreviation masked := (masked all_sipms consider_masked).
Abbreviation enough_sipms := (enough_sipms msipm).
Abbreviation corona_threshold := (corona_threshold Qthr).
Abbreviation corona_body :=
  (corona_body all_sipms Qlm lm_radius new_lm_radius msipm consider_masked).
Abbreviation corona_loop :=
  (corona_loop all_sipms Qlm lm_radius new_lm_radius msipm consider_masked).
Abbreviation corona :=
  (corona all_sipms Qthr Qlm lm_radius new_lm_radius msipm consider_masked).

(** On equally long arrays every index of a pass is within bounds: the
    only failures of a pass are those of [barycenter]. *)
Lemma corona_body_Raise pos qs c e :
  length pos = length qs →
  corona_body pos qs c = Raise e →
  e = SipmEmptyList ∨ e = SipmZeroCharge.
Proof.
  intros Hlen H. unfold corona_body in H.
  destruct (length qs =? 0)%nat eqn:E0; [done|].
  bind_raise H hottest Hh.
  { apply np_argmax_Raise in H. by subst qs. }
  pose proof (np_argmax_lt _ _ Hh) as Hlt.
  bind_raise H q_hot Hq.
  { apply getitem_Raise in H as [_ ?]. lia. }
  destruct (negb (Qle_bool Qlm q_hot)); [done|].
  bind_raise H pos_hot Hp.
  { apply getitem_Raise in H as [_ ?]. lia. }
  unfold get_nearby_sipm_inds in H.
  rewrite !np_take_where in H by (rewrite length_fmap; congruence).
  simpl in H.
  bind_raise H b_lm Hb.
  { apply barycenter_Raise in H. tauto. }
  pose proof (barycenter_Ok _ _ _ Hb) as (_ & _ & ->). simpl in H.
  rewrite count_masked_corona in H. simpl in H.
  bind_raise H c' Hc.
  - destruct (enough_sipms _ _); [|done].
    rewrite !np_take_where in H by (rewrite length_fmap; congruence).
    simpl in H.
    bind_raise H b Hb'; [|done]. apply barycenter_Raise in H. tauto.
  - unfold discard_sipms in H.
    rewrite !np_delete_where in H by (rewrite length_fmap; congruence).
    done.
Qed.

Lemma corona_loop_Raise fuel pos qs c e :
  length pos = length qs →
  corona_loop fuel pos qs c = Some (Raise e) →
  e = SipmEmptyList ∨ e = SipmZeroCharge.
Proof.
  revert pos qs c. induction fuel as [|fuel IH]; intros pos qs c Hlen;
    rewrite corona_loop_unfold;
    destruct (corona_body pos qs c) as [[|l pos' qs' c']|e'] eqn:Hbody;
    try done.
  - intros [= <-]. by eapply corona_body_Raise.
  - apply IH.
    pose proof (corona_body_Next_mask _ _ _ _ _ _ _ _ _ _ _ _ _ Hbody Hlen)
      as (_ & -> & -> & _).
    by apply compress_same_length.
  - intros [= <-]. by eapply corona_body_Raise.
Qed.

Lemma corona_threshold_Raise pos qs e :
  length pos = length qs →
  corona_threshold pos qs = Raise e →
  (e = SipmEmptyList ∧ pos = []) ∨ e = SipmZeroCharge
  ∨ e = SipmEmptyListAboveQthr ∨ e = SipmZeroChargeAboveQthr.
Proof.
  intros Hlen. unfold corona_threshold.
  destruct pos as [|p pos]; [intros [= <-]; by left|]. simpl length at 1.
  simpl Nat.eqb at 1. cbv iota.
  destruct (Qeq_bool (np_sum qs) 0); [intros [= <-]; tauto|].
  rewrite !np_take_where by (rewrite length_fmap; congruence). simpl.
  destruct (length _ =? 0)%nat; [intros [= <-]; tauto|].
  destruct (Qeq_bool _ 0); [intros [= <-]; tauto | done].
Qed.

(** X13. On equally long [pos] and [qs] a call of [corona] that fails raises
    one of its six named failures: the assertion on a radius,
    [SipmEmptyList], [SipmZeroCharge], the two failures of the threshold or
    [ClusterEmptyList].  No index of the call is ever out of bounds. *)
Theorem corona_raises_only fuel pos qs e :
  length pos = length qs →
  corona fuel pos qs = Some (Raise e) →
  corona_failure e ∧ e ≠ IndexError.
Proof.
  intros Hlen H.
  assert (corona_failure e) as He; [|split; [done|]].
  2:{ intros ->. destruct He as [?|[?|[?|[?|[?|[? ?]]]]]]; discriminate. }
  unfold corona, corona_failure in *.
  destruct (negb (Qle_bool 0 lm_radius)); [injection H as <-; eauto 10|].
  destruct (negb (Qle_bool 0 new_lm_radius)); [injection H as <-; eauto 10|].
  destruct (corona_threshold pos qs) as [[pos' qs']|e'] eqn:Hthr.
  - destruct (corona_threshold_Ok _ _ _ _ _ Hlen Hthr) as (-> & -> & _).
    destruct (corona_loop fuel _ _ []) as [[c|e']|] eqn:Hloop; [| |done].
    + destruct (length c =? 0)%nat; [injection H as <-; tauto | done].
    + injection H as <-. apply corona_loop_Raise in Hloop; [tauto|].
      by apply compress_same_length.
  - injection H as <-. apply corona_threshold_Raise in Hthr; [tauto|done].
Qed.

(** A pass of the loop with masking off and [msipm >= 1] does not raise
    [SipmEmptyList]: the neighbourhood of the hottest sensor holds that
    sensor, and an accepted region holds at least [msipm] sensors. *)
Lemma corona_body_not_SipmEmptyList pos qs c :
  0 <= lm_radius → truthy consider_masked = false → (1 ≤ msipm)%Z →
  corona_body pos qs c ≠ Raise SipmEmptyList.
Proof.
  intros Hlm Hoff Hmsipm H. unfold corona_body in H.
  destruct (length qs =? 0)%nat eqn:E0; [done|].
  bind_raise H hottest Hh; [by destruct qs|].
  bind_raise H q_hot Hq; [by apply getitem_Raise in H as [? _]|].
  destruct (negb (Qle_bool Qlm q_hot)); [done|].
  bind_raise H pos_hot Hp; [by apply getitem_Raise in H as [? _]|].
  bind_raise H pos_lm Hplm; [by apply np_take_Raise in H|].
  bind_raise H qs_lm Hqlm; [by apply np_take_Raise in H|].
  bind_raise H b_lm Hb.
  { apply barycenter_Raise in H as [[_ ->]|[? _]]; [|done].
    apply np_take_length in Hplm. symmetry in Hplm.
    apply nil_length_inv in Hplm.
    assert (hottest ∈ get_nearby_sipm_inds pos_hot lm_radius pos) as Hin.
    { unfold getitem in Hp.
      destruct (pos !! hottest) as [p|] eqn:Hlk; simplify_eq/=.
      apply where_from_elem. exists hottest. split; [done|].
      rewrite list_lookup_fmap, Hlk. simpl. f_equal. by apply norm_le_self. }
    rewrite Hplm in Hin. by apply elem_of_nil in Hin. }
  pose proof (barycenter_Ok _ _ _ Hb) as (_ & _ & ->). simpl in H.
  rewrite count_masked_corona, Hoff in H. simpl in H.
  bind_raise H c' Hc.
  - destruct (enough_sipms _ 0%nat) eqn:E; [|done].
    bind_raise H p Hp'; [by apply np_take_Raise in H|].
    bind_raise H q Hq'; [by apply np_take_Raise in H|].
    bind_raise H b Hb'; [|done].
    apply barycenter_Raise in H as [[_ ->]|[? _]]; [|done].
    apply np_take_length in Hp'. simpl in Hp'.
    unfold enough_sipms in E. apply Z.leb_le in E. lia.
  - bind_raise H pq Hd; [|by destruct pq].
    unfold discard_sipms in H.
    bind_raise H p Hp'; [by apply np_delete_Raise in H|].
    bind_raise H q Hq'; [by apply np_delete_Raise in H | done].
Qed.

Lemma corona_loop_not_SipmEmptyList fuel pos qs c :
  0 <= lm_radius → truthy consider_masked = false → (1 ≤ msipm)%Z →
  corona_loop fuel pos qs c ≠ Some (Raise SipmEmptyList).
Proof.
  intros Hlm Hoff Hmsipm. revert pos qs c.
  induction fuel as [|fuel IH]; intros pos qs c;
    rewrite corona_loop_unfold;
    destruct (corona_body pos qs c) as [[|l pos' qs' c']|e'] eqn:Hbody;
    try done; try apply IH.
  all: intros [= ->]; by eapply corona_body_not_SipmEmptyList.
Qed.

(** X14. With masking off and [msipm >= 1], [corona] raises [SipmEmptyList]
    only for an event without sensors: no pass of the loop raises it. *)
Theorem corona_SipmEmptyList_empty_event fuel pos qs :
  truthy consider_masked = false → (1 ≤ msipm)%Z →
  corona fuel pos qs = Some (Raise SipmEmptyList) →
  pos = [].
Proof.
  intros Hoff Hmsipm. unfold corona.
  destruct (Qle_bool 0 lm_radius) eqn:Hlm; [|done]. apply Qle_bool_true in Hlm.
  destruct (negb (Qle_bool 0 new_lm_radius)); [done|]. simpl.
  destruct (corona_threshold pos qs) as [[pos' qs']|e'] eqn:Hthr.
  - destruct (corona_loop fuel pos' qs' []) as [[c|e']|] eqn:Hloop; [| |done].
    + by destruct (length c =? 0)%nat.
    + intros [= ->]. by apply corona_loop_not_SipmEmptyList in Hloop.
  - intros [= ->]. unfold corona_threshold in Hthr.
    destruct pos as [|p pos]; [done|]. exfalso. simpl in Hthr.
    destruct (Qeq_bool (np_sum qs) 0); [done|].
    bind_raise Hthr p' Hp; [by apply np_take_Raise in Hthr|].
    bind_raise Hthr q' Hq; [by apply np_take_Raise in Hthr|].
    destruct (length p' =? 0)%nat; [done|].
    by destruct (Qeq_bool (np_sum q') 0).
Qed.

(** What the loop adds to the list of clusters is paid for by the working
    set: in sensors, and for charges that are not negative in charge. *)
Lemma corona_loop_accounting fuel pos qs c c' :
  length pos = length qs →
  corona_loop fuel pos qs c = Some (Ok c') →
  (total_nsipm c' ≤ total_nsipm c + length qs)%nat
  ∧ (Forall (fun cl => (1 ≤ nsipm cl)%nat) c →
     Forall (fun cl => (1 ≤ nsipm cl)%nat) c')
  ∧ (Forall (fun q => 0 <= q) qs →
     total_charge c' <= total_charge c + np_sum qs).
Proof.
  revert pos qs c. induction fuel as [|fuel IH]; intros pos qs c Hlen;
    rewrite corona_loop_unfold;
    destruct (corona_body pos qs c) as [[|l pos' qs' c1]|e'] eqn:Hbody;
    try done.
  1,2: intros [= <-]; split_and!; [lia | done | intros Hq].
  1,2: apply np_sum_nonneg in Hq; lra.
  intros Hloop.
  pose proof (corona_body_Next_mask _ _ _ _ _ _ _ _ _ _ _ _ _ Hbody Hlen)
    as (_ & -> & -> & Hacc).
  set (mask := (fun p => norm_le p (new_local_maximum l) new_lm_radius) <$> pos)
    in *.
  assert (length mask = length qs) as Hm
      by (unfold mask; rewrite length_fmap; congruence).
  destruct (IH _ _ _ (compress_same_length _ _ _ Hlen) Hloop) as (IH1 & IH2 & IH3).
  pose proof (compress_length_split mask qs Hm) as Hsplit.
  pose proof (np_sum_compress_split mask qs Hm) as Hsum.
  destruct (enough_sipms _ _).
  - destruct Hacc as (cl & Hb & ->).
    pose proof (barycenter_Ok _ _ _ Hb) as (Hne & _ & Hcl).
    injection Hcl as ->.
    rewrite total_nsipm_snoc, total_charge_snoc in *. simpl in *.
    split_and!.
    + lia.
    + intros Hc. apply IH2, Forall_app. split; [done|].
      constructor; [|constructor]. simpl.
      rewrite <- (compress_same_length mask pos qs Hlen).
      destruct (compress mask pos); [done | simpl; lia].
    + intros Hq. specialize (IH3 (compress_Forall _ _ _ Hq)). lra.
  - subst c1. split_and!; [lia | done |].
    intros Hq. specialize (IH3 (compress_Forall _ _ _ Hq)).
    pose proof (np_sum_nonneg _ (compress_Forall _ mask _ Hq)). lra.
Qed.

(** X11. On equally long [pos] and [qs], the list of clusters that [corona]
    returns is not empty, every cluster holds at least one sensor, and the
    clusters hold together no more sensors than the event has; so there are
    no more clusters than sensors. *)
Theorem corona_cluster_count fuel pos qs c :
  length pos = length qs →
  corona fuel pos qs = Some (Ok c) →
  c ≠ []
  ∧ Forall (fun cl => (1 ≤ nsipm cl)%nat) c
  ∧ (total_nsipm c ≤ length qs)%nat
  ∧ (length c ≤ length qs)%nat.
Proof.
  intros Hlen (pos' & qs' & Hthr & Hloop & Hne)%corona_Ok.
  destruct (corona_threshold_Ok _ _ _ _ _ Hlen Hthr) as (-> & -> & _).
  destruct (corona_loop_accounting _ _ _ _ _
              (compress_same_length _ _ _ Hlen) Hloop) as (H1 & H2 & _).
  specialize (H2 (Forall_nil_2 _)).
  pose proof (compress_length_le ((fun q => Qle_bool Qthr q) <$> qs) qs) as Hle.
  pose proof (total_nsipm_length c H2) as Hc.
  change (total_nsipm []) with 0%nat in H1.
  split_and!; [done | done | lia | lia].
Qed.

(** X12. When no charge of the event is negative, the clusters that [corona]
    returns hold together no more charge than the event. *)
Theorem corona_charge_bound fuel pos qs c :
  length pos = length qs →
  Forall (fun q => 0 <= q) qs →
  corona fuel pos qs = Some (Ok c) →
  total_charge c <= np_sum qs.
Proof.
  intros Hlen Hq (pos' & qs' & Hthr & Hloop & Hne)%corona_Ok.
  destruct (corona_threshold_Ok _ _ _ _ _ Hlen Hthr) as (-> & -> & _).
  set (keep := (fun q => Qle_bool Qthr q) <$> qs) in *.
  assert (length keep = length qs) as Hk by (unfold keep; by rewrite length_fmap).
  destruct (corona_loop_accounting _ _ _ _ _
              (compress_same_length _ _ _ Hlen) Hloop) as (_ & _ & H3).
  specialize (H3 (compress_Forall _ _ _ Hq)).
  pose proof (np_sum_compress_split keep qs Hk) as Hsum.
  pose proof (np_sum_nonneg _ (compress_Forall _ (negb <$> keep) _ Hq)).
  change (total_charge []) with 0 in H3. lra.
Qed.



(** X18. On equally long [pos] and [qs], the sensors that pass the checks
    of [corona] are sensors of the event in their order, position with
    charge, each of charge at least [Qthr]; when every charge of the event
    is at least [Qthr], they are all the sensors of the event. *)
Theorem corona_threshold_keeps pos qs pos' qs' :
  length pos = length qs →
  corona_threshold pos qs = Ok (pos', qs') →
  length pos' = length qs'
  ∧ Forall (fun q => Qthr <= q) qs'
  ∧ zip pos' qs' `sublist_of` zip pos qs
  ∧ (Forall (fun q => Qthr <= q) qs → pos' = pos ∧ qs' = qs).
Proof.
  intros Hlen Hthr.
  destruct (corona_threshold_Ok _ _ _ _ _ Hlen Hthr) as (-> & -> & _).
  set (keep := (fun q => Qle_bool Qthr q) <$> qs).
  split_and!.
  - by apply compress_same_length.
  - eapply Forall_impl; [apply (compress_fmap_Forall (fun q => Qle_bool Qthr q))|].
    intros q Hq. by apply Qle_bool_true.
  - rewrite <- compress_zip. apply compress_sublist.
  - intros Hall.
    assert (Forall (fun b => b = true) keep) as Hk.
    { unfold keep. apply Forall_fmap. eapply Forall_impl; [exact Hall|].
      intros q Hq. by apply Qle_bool_true. }
    assert (∀ (A : Type) (arr : list A),
              length arr = length keep → compress keep arr = arr) as Hid.
    { intros A arr. clear -Hk. revert arr.
      induction Hk as [|b keep -> _ IH]; intros [|x arr] Ha; simplify_eq/=;
        [done|]. by rewrite IH. }
    split; apply Hid; unfold keep; rewrite length_fmap; congruence.
Qed.

(** X19. A negative radius makes [corona] raise the assertion of that
    radius, the one of [lm_radius] first, before any look at the event: so
    also for an event without sensors. *)
Theorem corona_negative_radius fuel pos qs :
  (lm_radius < 0 →
   corona fuel pos qs
   = Some (Raise (AssertionError "lm_radius must be non-negative")))
  ∧ (0 <= lm_radius → new_lm_radius < 0 →
     corona fuel pos qs
     = Some (Raise (AssertionError "new_lm_radius must be non-negative"))).
Proof.
  unfold corona. split.
  - intros H%Qle_bool_false. by rewrite H.
  - intros H1%Qle_bool_true H2%Qle_bool_false. by rewrite H1, H2.
Qed.

End CoronaMore.

Lemma count_masked_all_active cs d (table : DataFrame) consider_masked :
  Forall (fun r => Active r ≠ 0%Z) table →
  count_masked cs d table (masked table consider_masked) = Ok 0%nat.
Proof.
  intros Hall. rewrite count_masked_corona.
  rewrite inactive_within_all_active by done. by destruct (truthy _).
Qed.

Lemma corona_body_all_active all_sipms Qlm lm_radius new_lm_radius msipm
    cm cm' pos qs c :
  Forall (fun r => Active r ≠ 0%Z) all_sipms →
  corona_body all_sipms Qlm lm_radius new_lm_radius msipm cm pos qs c
  = corona_body all_sipms Qlm lm_radius new_lm_radius msipm cm' pos qs c.
Proof.
  intros Hall. unfold corona_body.
  destruct (length qs =? 0)%nat; [done|].
  destruct (np_argmax qs) as [hottest|]; [|done]. simpl.
  destruct (getitem qs hottest) as [q_hot|]; [|done]. simpl.
  destruct (negb (Qle_bool Qlm q_hot)); [done|].
  destruct (getitem pos hottest) as [pos_hot|]; [|done]. simpl.
  destruct (np_take pos _) as [pos_lm|]; [|done]. simpl.
  destruct (np_take qs _) as [qs_lm|]; [|done]. simpl.
  destruct (barycenter pos_lm qs_lm) as [b_lm|]; [|done]. simpl.
  destruct (getitem b_lm 0%nat) as [cl|]; [|done]. simpl.
  by rewrite !count_masked_all_active.
Qed.

Lemma corona_loop_all_active all_sipms Qlm lm_radius new_lm_radius msipm
    cm cm' fuel pos qs c :
  Forall (fun r => Active r ≠ 0%Z) all_sipms →
  corona_loop all_sipms Qlm lm_radius new_lm_radius msipm cm fuel pos qs c
  = corona_loop all_sipms Qlm lm_radius new_lm_radius msipm cm' fuel pos qs c.
Proof.
  intros Hall. revert pos qs c.
  induction fuel as [|fuel IH]; intros pos qs c;
    rewrite !(corona_loop_unfold all_sipms);
    rewrite (corona_body_all_active _ _ _ _ _ cm cm') by done;
    [done|].
  destruct (corona_body _ _ _ _ _ cm' pos qs c) as [[|l pos' qs' c']|e]; try done.
Qed.

(** X15. When every sensor of the table is active, [consider_masked] makes
    no difference: [corona] gives the same result with masking on and with
    masking off. *)
Theorem corona_all_active all_sipms Qthr Qlm lm_radius new_lm_radius msipm
    consider_masked consider_masked' fuel pos qs :
  Forall (fun r => Active r ≠ 0%Z) all_sipms →
  corona all_sipms Qthr Qlm lm_radius new_lm_radius msipm consider_masked
    fuel pos qs
  = corona all_sipms Qthr Qlm lm_radius new_lm_radius msipm consider_masked'
      fuel pos qs.
Proof.
  intros Hall. unfold corona.
  destruct (negb (Qle_bool 0 lm_radius)); [done|].
  destruct (negb (Qle_bool 0 new_lm_radius)); [done|].
  destruct (corona_threshold Qthr pos qs) as [[pos' qs']|e]; [|done].
  by rewrite (corona_loop_all_active _ _ _ _ _ consider_masked consider_masked').
Qed.

Lemma compress_all_false {A} (f : A → bool) {B} (arr : list A) (arr' : list B) :
  Forall (fun x => f x = false) arr → compress (f <$> arr) arr' = [].
Proof.
  intros H. revert arr'.
  induction H as [|x arr Hx _ IH]; intros [|y arr']; csimpl; try done.
  by rewrite Hx.
Qed.

(** X20. On equally long [pos] and [qs] and with non-negative radii, an
    event that is not empty, whose charges do not sum to zero and are all
    strictly below [Qthr], makes [corona] raise [SipmEmptyListAboveQthr]. *)
Theorem corona_all_below_threshold all_sipms Qthr Qlm lm_radius new_lm_radius
    msipm consider_masked fuel pos qs :
  0 <= lm_radius → 0 <= new_lm_radius →
  length pos = length qs → pos ≠ [] → ¬ np_sum qs == 0 →
  Forall (fun q => q < Qthr) qs →
  corona all_sipms Qthr Qlm lm_radius new_lm_radius msipm consider_masked
    fuel pos qs
  = Some (Raise SipmEmptyListAboveQthr).
Proof.
  intros Hlm Hnew Hlen Hpos Hsum Hall.
  rewrite corona_checks_passed, corona_threshold_mask by done.
  rewrite (compress_all_false (fun q => Qle_bool Qthr q)); [done|].
  eapply Forall_impl; [exact Hall|]. intros q Hq. by apply Qle_bool_false.
Qed.

(** X21. The sensors that the index array of [get_nearby_sipm_inds] selects
    from [pos] are sensors of [pos] in their order, each at distance at most
    [d] of [cs]; the selection raises nothing. *)
Theorem get_nearby_sipm_inds_selects cs d pos :
  ∃ region,
    np_take pos (get_nearby_sipm_inds cs d pos) = Ok region
    ∧ region `sublist_of` pos
    ∧ Forall (fun p => 0 <= d ∧ sqdist p cs <= d * d) region.
Proof.
  exists (compress ((fun p => norm_le p cs d) <$> pos) pos). split_and!.
  - unfold get_nearby_sipm_inds. apply np_take_where. by rewrite length_fmap.
  - apply compress_sublist.
  - eapply Forall_impl; [apply (compress_fmap_Forall (fun p => norm_le p cs d))|].
    intros p Hp. by apply norm_le_true.
Qed.

(** X22. The loop of [corona] only appends to its list of clusters: a pass
    that completes leaves the clusters it found before in place and adds at
    most one, and the list the loop ends with starts with the list it was
    started with. *)
Theorem corona_loop_appends all_sipms Qlm lm_radius new_lm_radius msipm
    consider_masked :
  (∀ pos qs c l pos' qs' c',
     corona_body all_sipms Qlm lm_radius new_lm_radius msipm consider_masked
       pos qs c = Ok (Next l pos' qs' c') →
     c `prefix_of` c' ∧ (length c' ≤ length c + 1)%nat)
  ∧ (∀ fuel pos qs c c',
       corona_loop all_sipms Qlm lm_radius new_lm_radius msipm consider_masked
         fuel pos qs c = Some (Ok c') →
       c `prefix_of` c').
Proof.
  assert (∀ pos qs c l pos' qs' c',
            corona_body all_sipms Qlm lm_radius new_lm_radius msipm
              consider_masked pos qs c = Ok (Next l pos' qs' c') →
            c `prefix_of` c' ∧ (length c' ≤ length c + 1)%nat) as Hstep.
  { intros pos qs c l pos' qs' c' Hbody.
    apply corona_body_Next in Hbody as (_ & _ & Hacc & _).
    destruct (enough_sipms _ _ _).
    - destruct Hacc as (p & q & b & _ & _ & Hb & ->).
      pose proof (barycenter_Ok _ _ _ Hb) as (_ & _ & ->).
      split; [by apply prefix_app_r|]. rewrite length_app. simpl. lia.
    - subst c'. split; [done|lia]. }
  split; [done|].
  intros fuel. induction fuel as [|fuel IH]; intros pos qs c c';
    rewrite corona_loop_unfold;
    destruct (corona_body _ _ _ _ _ _ pos qs c) as [[|l pos' qs' c1]|e] eqn:Hbody;
    try done; try (by intros [= <-]).
  intros Hloop. etrans; [|by eapply IH]. by eapply Hstep.
Qed.

(** ** The further properties at concrete inputs *)

Lemma get_nearby_sipm_inds_radius_0_witness :
  1%nat ∈ get_nearby_sipm_inds (1, 0) 0 [(0, 0); (1, 0)] ↔
  ∃ p : point, [(0, 0); (1, 0)] !! 1%nat = Some p ∧ p.1 == 1 ∧ p.2 == 0.
Proof.
  exact (get_nearby_sipm_inds_radius_0 (1, 0) 0 [(0, 0); (1, 0)] 1
           (Qeq_refl 0)).
Defined.

Lemma get_nearby_sipm_inds_mono_witness :
  get_nearby_sipm_inds (0, 0) 1 [(0, 0); (1, 0); (2, 0)]
  `sublist_of` get_nearby_sipm_inds (0, 0) 2 [(0, 0); (1, 0); (2, 0)].
Proof.
  assert (1 <= 2) as H by (by vm_compute).
  exact (proj1 (get_nearby_sipm_inds_mono (0, 0) 1 2
                  [(0, 0); (1, 0); (2, 0)] H)).
Defined.

Lemma discard_sipms_partition_witness :
  ∃ pos' qs' pos_sel qs_sel,
    discard_sipms [2; 0]%nat [(0, 0); (1, 0); (2, 0)] [5; 6; 7] = Ok (pos', qs')
    ∧ np_take [(0, 0); (1, 0); (2, 0)] [2; 0]%nat = Ok pos_sel
    ∧ np_take [5; 6; 7] [2; 0]%nat = Ok qs_sel
    ∧ zip pos_sel qs_sel ++ zip pos' qs'
      ≡ₚ zip [(0, 0); (1, 0); (2, 0)] [5; 6; 7]
    ∧ pos' `sublist_of` [(0, 0); (1, 0); (2, 0)]
    ∧ qs' `sublist_of` [5; 6; 7]
    ∧ length pos' = length qs'
    ∧ (length pos' + 2 = 3)%nat.
Proof.
  apply (discard_sipms_partition [2; 0]%nat [(0, 0); (1, 0); (2, 0)] [5; 6; 7]).
  - repeat (constructor; [rewrite ?elem_of_cons, ?elem_of_nil; lia|]).
    constructor.
  - repeat (constructor; [simpl; lia|]). constructor.
  - reflexivity.
Defined.

Lemma discard_sipms_out_of_bounds_witness :
  discard_sipms [5]%nat [(0, 0)] [1] = Raise IndexError.
Proof.
  apply (discard_sipms_out_of_bounds [5]%nat [(0, 0)] [1] 5).
  - apply list_elem_of_here.
  - left. simpl. lia.
Defined.

Lemma discard_sipms_removes_nearby_witness :
  get_nearby_sipm_inds (0, 0) 1 [(2, 0)] = [].
Proof.
  assert (1 <= 1) as H by apply Qle_refl.
  exact (discard_sipms_removes_nearby (0, 0) 1 1 [(0, 0); (1, 0); (2, 0)]
           [5; 6; 7] [(2, 0)] [7] H eq_refl).
Defined.

Lemma count_masked_bounds_witness :
  ∃ n, count_masked (0, 0) 1 masked_table (Some [true; false]) = Ok n
       ∧ (n ≤ length (filter (fun b => b = false) [true; false]))%nat
       ∧ (n ≤ length (get_nearby_sipm_inds (0%Q, 0%Q) 1%Q
                        (zip (X <$> masked_table) (Y <$> masked_table))))%nat
       ∧ (Forall (fun b => b = true) [true; false] → n = 0%nat).
Proof.
  exact (count_masked_bounds (0, 0) 1 masked_table [true; false] eq_refl).
Defined.

Lemma count_masked_mono_witness :
  count_masked (0, 0) (1 # 2) masked_table (Some [true; false]) = Ok 0%nat
  ∧ count_masked (0, 0) 1 masked_table (Some [true; false]) = Ok 1%nat
  ∧ (0 ≤ 1)%nat.
Proof.
  assert ((1 # 2) <= 1) as H by (by vm_compute).
  split_and!; [reflexivity | reflexivity |].
  exact (count_masked_mono (0, 0) (1 # 2) 1 masked_table [true; false] 0 1
           H eq_refl eq_refl eq_refl).
Defined.


Lemma barycenter_one_position_witness :
  ∃ cl, barycenter [(1, 1); (1, 1)] [2; 3] = Ok [cl]
        ∧ (posxy cl).1 == 1 ∧ (posxy cl).2 == 1
        ∧ (var cl).1 == 0 ∧ (var cl).2 == 0.
Proof.
  eexists. split; [reflexivity|].
  apply (barycenter_one_position (1, 1) [(1, 1); (1, 1)] [2; 3]).
  - repeat (constructor; [split; reflexivity|]). constructor.
  - reflexivity.
  - reflexivity.
Defined.

Lemma corona_cluster_count_witness :
  ∃ c, corona [] 0 4 0 (3 # 2) 2 (Some false) 2
         [(0, 0); (1, 0); (10, 10); (11, 10)] [5; 5; 6; 6] = Some (Ok c)
       ∧ c ≠ [] ∧ Forall (fun cl => (1 ≤ nsipm cl)%nat) c
       ∧ (total_nsipm c ≤ 4)%nat ∧ (length c ≤ 4)%nat.
Proof.
  eexists. split; [vm_compute; reflexivity|].
  apply (corona_cluster_count [] 0 4 0 (3 # 2) 2 (Some false) 2
           [(0, 0); (1, 0); (10, 10); (11, 10)] [5; 5; 6; 6]);
    [reflexivity | vm_compute; reflexivity].
Defined.

Lemma corona_charge_bound_witness :
  ∃ c, corona [] 0 4 0 (3 # 2) 2 (Some false) 2
         [(0, 0); (1, 0); (10, 10); (11, 10)] [5; 5; 6; 6] = Some (Ok c)
       ∧ total_charge c <= np_sum [5; 5; 6; 6].
Proof.
  eexists. split; [vm_compute; reflexivity|].
  apply (corona_charge_bound [] 0 4 0 (3 # 2) 2 (Some false) 2
           [(0, 0); (1, 0); (10, 10); (11, 10)] [5; 5; 6; 6]).
  - reflexivity.
  - repeat (constructor; [by vm_compute|]). constructor.
  - vm_compute. reflexivity.
Defined.

Lemma corona_raises_only_witness :
  corona_failure ClusterEmptyList ∧ ClusterEmptyList ≠ IndexError.
Proof.
  apply (corona_raises_only [] 0 10 0 1 1 None 3 [(0, 0); (1, 0)] [1; 2]);
    [reflexivity | vm_compute; reflexivity].
Defined.

Lemma corona_SipmEmptyList_empty_event_witness :
  corona [] 0 4 0 1 1 (Some false) 3 [] [] = Some (Raise SipmEmptyList)
  ∧ @nil point = [].
Proof.
  split; [reflexivity|].
  apply (corona_SipmEmptyList_empty_event [] 0 4 0 1 1 (Some false) 3 [] []);
    [reflexivity | lia | vm_compute; reflexivity].
Defined.

Lemma corona_all_active_witness :
  corona [mkRow 0 0 1; mkRow 1 0 1] 0 4 0 1 2 (Some true) 2 [(0, 0)] [5]
  = corona [mkRow 0 0 1; mkRow 1 0 1] 0 4 0 1 2 (Some false) 2 [(0, 0)] [5].
Proof.
  apply corona_all_active.
  repeat (constructor; [discriminate|]). constructor.
Defined.



Lemma corona_threshold_keeps_witness :
  length [(1, 0); (2, 0)] = length [2; 3]
  ∧ Forall (fun q => 2 <= q) [2; 3]
  ∧ zip [(1, 0); (2, 0)] [2; 3] `sublist_of` zip [(0, 0); (1, 0); (2, 0)] [1; 2; 3]
  ∧ (Forall (fun q => 2 <= q) [1; 2; 3] →
     [(1, 0); (2, 0)] = [(0, 0); (1, 0); (2, 0)] ∧ [2; 3] = [1; 2; 3]).
Proof.
  exact (corona_threshold_keeps 2 [(0, 0); (1, 0); (2, 0)] [1; 2; 3]
           [(1, 0); (2, 0)] [2; 3] eq_refl eq_refl).
Defined.

Lemma corona_negative_radius_witness :
  corona [] 0 4 (-1) 1 1 None 0 [] []
  = Some (Raise (AssertionError "lm_radius must be non-negative"))
  ∧ corona [] 0 4 0 (-1) 1 None 0 [] []
    = Some (Raise (AssertionError "new_lm_radius must be non-negative")).
Proof.
  split.
  - apply (proj1 (corona_negative_radius [] 0 4 (-1) 1 1 None 0 [] [])).
    reflexivity.
  - apply (proj2 (corona_negative_radius [] 0 4 0 (-1) 1 None 0 [] []));
      [apply Qle_refl | reflexivity].
Defined.

Lemma corona_all_below_threshold_witness :
  corona [] 6 4 0 1 1 None 0 [(0, 0); (1, 0)] [5; 3]
  = Some (Raise SipmEmptyListAboveQthr).
Proof.
  assert (0 <= 1) as H by (by vm_compute).
  apply corona_all_below_threshold;
    [apply Qle_refl | done | reflexivity | done | by vm_compute |].
  repeat (constructor; [reflexivity|]). constructor.
Defined.

Lemma corona_loop_appends_witness :
  ∃ l cl,
    corona_body masked_table 4 0 1 2 (Some true) [(0, 0)] [5] []
    = Ok (Next l [] [] [cl])
    ∧ [] `prefix_of` [cl] ∧ (length [cl] ≤ length (@nil Cluster) + 1)%nat.
Proof.
  do 2 eexists.
  match goal with
  | |- ?A ∧ _ => assert A as Hbody by (vm_compute; reflexivity)
  end.
  split; [exact Hbody|].
  exact (proj1 (corona_loop_appends masked_table 4 0 1 2 (Some true))
           _ _ _ _ _ _ _ Hbody).
Defined.
